(** * Contagion simulation: a shallow embedding of [model.py]

    The development follows the three classes of the source, [Point],
    [Cell] and [Model].

    - Python's [int] is [Z]; Python's [float] is idealised by the real
      numbers [R] (rounding, overflow and NaN are outside the model).
    - The module [constants] is imported by the source but is not part of
      it: its names are the fields of the record [Constants], and every
      definition takes the record as a parameter.
    - Cells are mutable objects held in the list [population].  The list is
      the store: an index into it is the reference to a cell, and a mutation
      of a cell is an update of the list at that index.
    - A Python exception is a [Raise] result.
    - The process-wide generator behind [random()] is a stream of draws
      [nat -> R] together with the index of the next draw. *)

From Stdlib Require Import ZArith Reals Lra Lia String.
From stdpp Require Import base tactics option list.

Local Open Scope Z_scope.

(** ** The imported constants *)

Record Constants := {
  BOUNDS_WIDTH : R;
  MAX_X : R;
  MIN_X : R;
  MAX_Y : R;
  MIN_Y : R;
  CELL_RADIUS : R;
  VULNERABLE : Z;
  INFECTED : Z;
  IMMUNE : Z;
  RECOVERY_PERIOD : Z
}.

(** ** Exceptions *)

Inductive exn := ValueError | IndexError.

Inductive result (A : Type) :=
| Ok (a : A)
| Raise (e : exn).
Arguments Ok {A} a.
Arguments Raise {A} e.

#[global] Instance result_ret : MRet result := fun A a => Ok a.

#[global] Instance result_bind : MBind result := fun A B f m =>
  match m with
  | Ok a => f a
  | Raise e => Raise e
  end.

(** [l[i]] for [0 <= i]: an [IndexError] past the end. *)
Definition index {A : Type} (l : list A) (i : nat) : result A :=
  match l !! i with
  | Some a => Ok a
  | None => Raise IndexError
  end.

(** ** class Point *)

Record Point := mkPoint { x : R; y : R }.

Definition Point_add (self other : Point) : Point :=
  let x' := (x self + x other)%R in
  let y' := (y self + y other)%R in
  mkPoint x' y'.

Definition Point_distance (self point2 : Point) : R :=
  sqrt ((x self - x point2) ^ 2 + (y self - y point2) ^ 2)%R.

(** ** class Cell *)

Record Cell := mkCell { location : Point; direction : Point; sickness : Z }.

Definition set_location (c : Cell) (p : Point) : Cell :=
  mkCell p (direction c) (sickness c).
Definition set_sickness (c : Cell) (s : Z) : Cell :=
  mkCell (location c) (direction c) s.

(** What [check_contacts] records of one pair it looked at. *)
Record event := mkEvent { ev_i : nat; ev_j : nat; ev_called : bool }.

Record Model := mkModel { population : list Cell; time : Z }.

Section Simulation.

Variable constants : Constants.

(** [Cell(location, direction)]: the class attribute gives [sickness]. *)
Definition Cell_init (location direction : Point) : Cell :=
  mkCell location direction constants.(VULNERABLE).

Definition contract_disease (self : Cell) : Cell :=
  set_sickness self constants.(INFECTED).

Definition immunize (self : Cell) : Cell :=
  set_sickness self constants.(IMMUNE).

Definition is_vulnerable (self : Cell) : bool :=
  if sickness self =? constants.(VULNERABLE) then true else false.

Definition is_infected (self : Cell) : bool :=
  if sickness self >=? constants.(INFECTED) then true else false.

Definition is_immune (self : Cell) : bool :=
  if sickness self =? constants.(IMMUNE) then true else false.

Definition Cell_tick (self : Cell) : Cell :=
  let self := set_location self (Point_add (location self) (direction self)) in
  let self :=
    if is_infected self then set_sickness self (sickness self + 1) else self in
  if sickness self >? constants.(RECOVERY_PERIOD) then immunize self else self.

Definition color (self : Cell) : string :=
  if is_vulnerable self then "gray"%string
  else if is_infected self then "red"%string
  else if is_immune self then "yellow"%string
  else ""%string.

(** [self.contact_with(cell2)] for two distinct objects: the pair after
    the call. *)
Definition contact_with (self cell2 : Cell) : Cell * Cell :=
  if is_infected cell2 && is_vulnerable self then (contract_disease self, cell2)
  else if is_infected self && is_vulnerable cell2 then (self, contract_disease cell2)
  else (self, cell2).

(** ** class Model *)

Section Random.

Variable draws : nat -> R.

Definition random (s : nat) : R * nat := (draws s, S s).

Definition random_location (s : nat) : Point * nat :=
  let '(r, s) := random s in
  let start_x := (r * constants.(BOUNDS_WIDTH) - constants.(MAX_X))%R in
  let '(r, s) := random s in
  let start_y := (r * constants.(BOUNDS_WIDTH) - constants.(MAX_Y))%R in
  (mkPoint start_x start_y, s).

Definition random_direction (speed : R) (s : nat) : Point * nat :=
  let '(r, s) := random s in
  let random_angle := (2 * PI * r)%R in
  let direction_x := (cos random_angle * speed)%R in
  let direction_y := (sin random_angle * speed)%R in
  (mkPoint direction_x direction_y, s).

(** One of the three loops of [__init__]: [n] rounds, each drawing a
    location and a direction, building the cell, applying [force] to it
    ([immunize], [contract_disease] or nothing) and appending it. *)
Fixpoint populate (n : nat) (force : Cell -> Cell) (speed : R)
    (population : list Cell) (s : nat) : list Cell * nat :=
  match n with
  | O => (population, s)
  | S n' =>
      let '(start_location, s) := random_location s in
      let '(start_direction, s) := random_direction speed s in
      let cell := Cell_init start_location start_direction in
      let cell := force cell in
      populate n' force speed (population ++ [cell]) s
  end.

(** [Model(cells, speed, num_infected, num_immune)], the generator at
    draw [s].  [range(k)] runs [Z.to_nat k] rounds. *)
Definition Model_init (cells : Z) (speed : R) (num_infected num_immune : Z)
    (s : nat) : result Model :=
  let population := [] in
  if (num_infected >=? cells) || (num_infected <=? 0)
     || (num_immune + num_infected >? cells) || (num_immune <? 0)
     || (num_immune >=? cells)
  then Raise ValueError
  else
    let '(population, s) :=
      populate (Z.to_nat num_immune) immunize speed population s in
    let '(population, s) :=
      populate (Z.to_nat num_infected) contract_disease speed population s in
    let '(population, s) :=
      populate (Z.to_nat (cells - num_infected - num_immune)) (fun cell => cell)
        speed population s in
    Ok (mkModel population 0).

End Random.

Definition enforce_bounds (cell : Cell) : Cell :=
  let cell :=
    if Rgt_dec (x (location cell)) constants.(MAX_X) then
      mkCell (mkPoint constants.(MAX_X) (y (location cell)))
             (mkPoint (x (direction cell) * -1) (y (direction cell)))
             (sickness cell)
    else cell in
  let cell :=
    if Rgt_dec (y (location cell)) constants.(MAX_Y) then
      mkCell (mkPoint (x (location cell)) constants.(MAX_Y))
             (mkPoint (x (direction cell)) (y (direction cell) * -1))
             (sickness cell)
    else cell in
  let cell :=
    if Rlt_dec (y (location cell)) constants.(MIN_Y) then
      mkCell (mkPoint (x (location cell)) constants.(MIN_Y))
             (mkPoint (x (direction cell)) (y (direction cell) * -1))
             (sickness cell)
    else cell in
  let cell :=
    if Rlt_dec (x (location cell)) constants.(MIN_X) then
      mkCell (mkPoint constants.(MIN_X) (y (location cell)))
             (mkPoint (x (direction cell) * -1) (y (direction cell)))
             (sickness cell)
    else cell in
  cell.

(** The body of the inner loop of [check_contacts] for the pair [(i, j)]:
    [cell1] is the object at index [i] (bound once by the outer loop and
    mutated in place, so it is read from the store), [cell2] the one at
    [j].  The boolean tells whether [contact_with] was called. *)
Definition visit (i j : nat) (population : list Cell) : result (list Cell * bool) :=
  cell1 ← index population i;
  cell2 ← index population j;
  if Rlt_dec (Point_distance (location cell1) (location cell2)) constants.(CELL_RADIUS)
  then
    let '(cell1, cell2) := contact_with cell1 cell2 in
    Ok (<[j := cell2]> (<[i := cell1]> population), true)
  else Ok (population, false).

(** [while j < n: ...; j += 1] runs [n - j] rounds; [rounds] counts them
    down. *)
Fixpoint inner_loop (rounds : nat) (i j : nat) (st : list Cell * list event)
    : result (list Cell * list event) :=
  match rounds with
  | O => Ok st
  | S rounds' =>
      '(population, called) ← visit i j (fst st);
      inner_loop rounds' i (S j) (population, snd st ++ [mkEvent i j called])
  end.

(** [while i < n: cell1 = population[i]; j = i + 1; ...; i += 1]. *)
Fixpoint outer_loop (rounds : nat) (n i : nat) (st : list Cell * list event)
    : result (list Cell * list event) :=
  match rounds with
  | O => Ok st
  | S rounds' =>
      _ ← index (fst st) i;
      let j := (i + 1)%nat in
      st ← inner_loop (n - j) i j st;
      outer_loop rounds' n (S i) st
  end.

(** [check_contacts], with the list of the pairs it looked at. *)
Definition check_contacts_log (population : list Cell)
    : result (list Cell * list event) :=
  let n := length population in
  let i := 0%nat in
  outer_loop (n - i) n i (population, []).

Definition check_contacts (population : list Cell) : result (list Cell) :=
  st ← check_contacts_log population; Ok (fst st).

(** The loop [for cell in self.population]: every cell in turn is
    advanced, then reflected. *)
Fixpoint tick_cells (cells : list Cell) : list Cell :=
  match cells with
  | [] => []
  | cell :: rest =>
      let cell := Cell_tick cell in
      let cell := enforce_bounds cell in
      cell :: tick_cells rest
  end.

Definition Model_tick (self : Model) : result Model :=
  let time' := time self + 1 in
  let population' := tick_cells (population self) in
  population' ← check_contacts population';
  Ok (mkModel population' time').

(** The loop of [is_complete]: [False] at the first infected cell. *)
Fixpoint none_infected (cells : list Cell) : bool :=
  match cells with
  | [] => true
  | cell :: rest => if is_infected cell then false else none_infected rest
  end.

Definition is_complete (self : Model) : bool := none_infected (population self).

End Simulation.

(** * The vocabulary of the properties *)

(** ** What is assumed of the constants *)

(** The two sentinels are distinct and both lie below the infected
    threshold, so the three predicates of [Cell] exclude one another. *)
Definition sentinels_separate (K : Constants) : Prop :=
  K.(VULNERABLE) < K.(INFECTED) /\ K.(IMMUNE) < K.(INFECTED)
  /\ K.(VULNERABLE) <> K.(IMMUNE).

(** The lower bounds do not exceed the upper ones. *)
Definition bounds_ordered (K : Constants) : Prop :=
  (K.(MIN_X) <= K.(MAX_X))%R /\ (K.(MIN_Y) <= K.(MAX_Y))%R.

(** The region where [random_location] draws from lies within the bounds:
    both coordinates are drawn from [BOUNDS_WIDTH]. *)
Definition bounds_cover_draws (K : Constants) : Prop :=
  (0 <= K.(BOUNDS_WIDTH))%R
  /\ (K.(MIN_X) <= - K.(MAX_X))%R /\ (K.(BOUNDS_WIDTH) <= 2 * K.(MAX_X))%R
  /\ (K.(MIN_Y) <= - K.(MAX_Y))%R /\ (K.(BOUNDS_WIDTH) <= 2 * K.(MAX_Y))%R.

(** The sickness level after [Cell.tick], as a function of the level
    before. *)
Definition aged (K : Constants) (s : Z) : Z :=
  let s := if s >=? K.(INFECTED) then s + 1 else s in
  if s >? K.(RECOVERY_PERIOD) then K.(IMMUNE) else s.

(** A level that is not the Vulnerable one. *)
Definition settled (K : Constants) (s : Z) : Prop := K.(INFECTED) <= s \/ s = K.(IMMUNE).

(** What a contact scan may do to one cell: nothing, or turn a
    Vulnerable level into the infected threshold.  Location and direction
    are never touched. *)
Definition touched (K : Constants) (c c' : Cell) : Prop :=
  location c' = location c /\ direction c' = direction c
  /\ (sickness c' = sickness c
      \/ (sickness c = K.(VULNERABLE) /\ sickness c' = K.(INFECTED))).

(** The pair an event is about. *)
Definition ev_pair (e : event) : nat * nat := (ev_i e, ev_j e).

(** The pairs looked at by [rounds] rounds of the outer loop that start at
    [i], in the order of the two loops: for each first index, the second
    ones from the next index up to [n - 1]. *)
Definition pairs_from (n i rounds : nat) : list (nat * nat) :=
  flat_map (fun i => map (fun j => (i, j)) (seq (i + 1) (n - (i + 1)))) (seq i rounds).

Definition all_pairs (n : nat) : list (nat * nat) := pairs_from n 0 n.

(** An event tells the truth about the population [pop]: its flag is set
    exactly when the two cells are closer than the contact radius. *)
Definition event_ok (K : Constants) (pop : list Cell) (e : event) : Prop :=
  exists c1 c2, pop !! ev_i e = Some c1 /\ pop !! ev_j e = Some c2
    /\ (ev_called e = true <->
        (Point_distance (location c1) (location c2) < K.(CELL_RADIUS))%R).

(** The driver calls [tick()] again and again: [k] calls in a row. *)
Fixpoint Model_ticks (K : Constants) (k : nat) (m : Model) : result Model :=
  match k with
  | O => Ok m
  | S k' => m' ← Model_tick K m; Model_ticks K k' m'
  end.

(** A cell after its own part of the [for] loop of [Model.tick]. *)
Definition moved (K : Constants) (c : Cell) : Cell := enforce_bounds K (Cell_tick K c).

(** The level is one of the two sentinels or at least the threshold. *)
Definition level_ok (K : Constants) (c : Cell) : Prop :=
  sickness c = K.(VULNERABLE) \/ sickness c = K.(IMMUNE) \/ K.(INFECTED) <= sickness c.

(** A point within the four bounds. *)
Definition inside (K : Constants) (p : Point) : Prop :=
  (K.(MIN_X) <= x p <= K.(MAX_X))%R /\ (K.(MIN_Y) <= y p <= K.(MAX_Y))%R.

(** The cell that one round of a loop of [__init__] builds from the three
    draws [s], [s + 1] and [s + 2], before it is forced to a status. *)
Definition fresh_cell (K : Constants) (draws : nat -> R) (speed : R) (s : nat) : Cell :=
  Cell_init K
    (mkPoint (draws s * K.(BOUNDS_WIDTH) - K.(MAX_X))
             (draws (S s) * K.(BOUNDS_WIDTH) - K.(MAX_Y)))
    (mkPoint (cos (2 * PI * draws (S (S s))) * speed)
             (sin (2 * PI * draws (S (S s))) * speed)).

(** The arguments that [__init__] refuses. *)
Definition refused (cells num_infected num_immune : Z) : Prop :=
  num_infected <= 0 \/ num_infected >= cells \/ num_immune < 0
  \/ num_immune >= cells \/ num_infected + num_immune > cells.

(** The population a successful [__init__] builds. *)
Definition built (K : Constants) (draws : nat -> R) (cells : Z) (speed : R)
    (num_infected num_immune : Z) (s : nat) : list Cell :=
  let a := Z.to_nat num_immune in
  let b := Z.to_nat num_infected in
  let c := Z.to_nat (cells - num_infected - num_immune) in
  map (fun k => immunize K (fresh_cell K draws speed (s + 3 * k))) (seq 0 a)
  ++ map (fun k => contract_disease K (fresh_cell K draws speed (s + 3 * a + 3 * k))) (seq 0 b)
  ++ map (fun k => fresh_cell K draws speed (s + 3 * a + 3 * b + 3 * k)) (seq 0 c).

(** ** A cascade within one scan: the population and its stages *)






(** ** Sample data *)

(** A configuration of the constants, for the examples. *)
Definition sample_constants : Constants := {|
  BOUNDS_WIDTH := 400;
  MAX_X := 200;
  MIN_X := -200;
  MAX_Y := 200;
  MIN_Y := -200;
  CELL_RADIUS := 15;
  VULNERABLE := 0;
  INFECTED := 1;
  IMMUNE := -1;
  RECOVERY_PERIOD := 3
|}.

(** A stream of draws, for the examples. *)
Definition sample_draws (n : nat) : R := (1 / 2)%R.

(** Two cells at the origin, at rest, for the examples: one just
    infected, one vulnerable. *)
Definition sample_infected : Cell :=
  mkCell (mkPoint 0 0) (mkPoint 0 0) sample_constants.(INFECTED).

Definition sample_vulnerable : Cell :=
  mkCell (mkPoint 0 0) (mkPoint 0 0) sample_constants.(VULNERABLE).

Definition sample_model : Model := mkModel [sample_infected; sample_vulnerable] 0.

(** ** Further vocabulary *)

(** A cell 20 to the right of the origin, at rest and vulnerable, and a
    population of two cells that are further apart than the radius. *)
Definition sample_distant : Cell :=
  mkCell (mkPoint 20 0) (mkPoint 0 0) sample_constants.(VULNERABLE).


(** An upper bound on the ticks during which a cell at level [s] can
    still be infected: what is left of the recovery period for an infected
    level, one more than a whole period for the Vulnerable sentinel,
    nothing otherwise. *)
Definition ticks_left (K : Constants) (s : Z) : nat :=
  if s >=? K.(INFECTED) then Z.to_nat (Z.max 1 (K.(RECOVERY_PERIOD) - s + 1))
  else if s =? K.(VULNERABLE)
       then S (Z.to_nat (Z.max 1 (K.(RECOVERY_PERIOD) - K.(INFECTED) + 1)))
       else 0%nat.

(** The same, added up over a population. *)
Definition work (K : Constants) (pop : list Cell) : nat :=
  list_sum (map (fun c => ticks_left K (sickness c)) pop).





(** A region that is wider than it is high, and draws near the upper end
    of the range. *)
Definition wide_constants : Constants := {|
  BOUNDS_WIDTH := 400;
  MAX_X := 200;
  MIN_X := -200;
  MAX_Y := 100;
  MIN_Y := -100;
  CELL_RADIUS := 15;
  VULNERABLE := 0;
  INFECTED := 1;
  IMMUNE := -1;
  RECOVERY_PERIOD := 3
|}.

Definition high_draws (n : nat) : R := (9 / 10)%R.

(** * Properties *)

(** ** The sickness level seen through the predicates *)

Section Levels.

Variable K : Constants.
Implicit Types (c self other : Cell) (pop : list Cell).

Lemma is_vulnerable_true c :
  is_vulnerable K c = true <-> sickness c = K.(VULNERABLE).
Proof. unfold is_vulnerable. destruct (Z.eqb_spec (sickness c) K.(VULNERABLE)); split; congruence. Qed.

Lemma is_immune_true c :
  is_immune K c = true <-> sickness c = K.(IMMUNE).
Proof. unfold is_immune. destruct (Z.eqb_spec (sickness c) K.(IMMUNE)); split; congruence. Qed.

Lemma is_infected_true c :
  is_infected K c = true <-> K.(INFECTED) <= sickness c.
Proof.
  unfold is_infected. rewrite Z.geb_leb.
  destruct (Z.leb_spec K.(INFECTED) (sickness c)); split; (congruence || lia).
Qed.

Lemma is_vulnerable_false c :
  is_vulnerable K c = false <-> sickness c <> K.(VULNERABLE).
Proof. rewrite <- is_vulnerable_true. destruct (is_vulnerable K c); split; congruence. Qed.

Lemma is_infected_false c :
  is_infected K c = false <-> sickness c < K.(INFECTED).
Proof.
  unfold is_infected. rewrite Z.geb_leb.
  destruct (Z.leb_spec K.(INFECTED) (sickness c)); split; (congruence || lia).
Qed.

Lemma is_immune_false c :
  is_immune K c = false <-> sickness c <> K.(IMMUNE).
Proof. rewrite <- is_immune_true. destruct (is_immune K c); split; congruence. Qed.


Lemma Cell_tick_sickness c : sickness (Cell_tick K c) = aged K (sickness c).
Proof.
  unfold Cell_tick, aged, is_infected, immunize, set_sickness, set_location; simpl.
  destruct (sickness c >=? K.(INFECTED)); simpl;
    match goal with |- context [?a >? ?b] => destruct (a >? b) end; reflexivity.
Qed.

Lemma Cell_tick_location c :
  location (Cell_tick K c) = Point_add (location c) (direction c).
Proof.
  unfold Cell_tick, is_infected, immunize, set_sickness, set_location; simpl.
  destruct (sickness c >=? K.(INFECTED)); simpl;
    match goal with |- context [?a >? ?b] => destruct (a >? b) end; reflexivity.
Qed.

Lemma Cell_tick_direction c : direction (Cell_tick K c) = direction c.
Proof.
  unfold Cell_tick, is_infected, immunize, set_sickness, set_location; simpl.
  destruct (sickness c >=? K.(INFECTED)); simpl;
    match goal with |- context [?a >? ?b] => destruct (a >? b) end; reflexivity.
Qed.

Lemma enforce_bounds_sickness c : sickness (enforce_bounds K c) = sickness c.
Proof. unfold enforce_bounds. repeat (destruct (Rgt_dec _ _) || destruct (Rlt_dec _ _)); reflexivity. Qed.

Lemma aged_vulnerable :
  K.(VULNERABLE) < K.(INFECTED) -> K.(VULNERABLE) <= K.(RECOVERY_PERIOD) ->
  aged K (K.(VULNERABLE)) = K.(VULNERABLE).
Proof. unfold aged. intros. destruct (Z.geb_spec K.(VULNERABLE) K.(INFECTED)); [lia|].
  destruct (Z.gtb_spec K.(VULNERABLE) K.(RECOVERY_PERIOD)); [lia|done]. Qed.

Lemma aged_immune : K.(IMMUNE) < K.(INFECTED) -> aged K (K.(IMMUNE)) = K.(IMMUNE).
Proof. unfold aged. intros. destruct (Z.geb_spec K.(IMMUNE) K.(INFECTED)); [lia|].
  destruct (Z.gtb_spec K.(IMMUNE) K.(RECOVERY_PERIOD)); done. Qed.

Lemma aged_infected s :
  K.(INFECTED) <= s ->
  aged K s = if s + 1 >? K.(RECOVERY_PERIOD) then K.(IMMUNE) else s + 1.
Proof. unfold aged. intros. destruct (Z.geb_spec s K.(INFECTED)); [done|lia]. Qed.

End Levels.

(** ** The contact rule and the scan *)


Section Contacts.

Variable K : Constants.
Implicit Types (c self other : Cell) (pop : list Cell).

Lemma touched_refl c : touched K c c.
Proof. repeat split; auto. Qed.

Lemma touched_trans c1 c2 c3 : touched K c1 c2 -> touched K c2 c3 -> touched K c1 c3.
Proof.
  intros (Hl1 & Hd1 & Hs1) (Hl2 & Hd2 & Hs2).
  repeat split; [congruence | congruence |].
  destruct Hs1 as [Hs1 | [Hv1 Hi1]], Hs2 as [Hs2 | [Hv2 Hi2]].
  - left; congruence.
  - right; split; congruence.
  - right; split; congruence.
  - right; split; congruence.
Qed.

Lemma contact_with_cases self other :
  contact_with K self other =
    if is_infected K other && is_vulnerable K self then (contract_disease K self, other)
    else if is_infected K self && is_vulnerable K other then (self, contract_disease K other)
    else (self, other).
Proof. reflexivity. Qed.

Lemma contact_with_touched self other :
  touched K self (fst (contact_with K self other))
  /\ touched K other (snd (contact_with K self other)).
Proof.
  unfold contact_with.
  destruct (is_infected K other && is_vulnerable K self) eqn:E1; simpl.
  - apply andb_true_iff in E1 as [_ Hv]. apply is_vulnerable_true in Hv.
    split; [|apply touched_refl]. repeat split; auto.
  - destruct (is_infected K self && is_vulnerable K other) eqn:E2; simpl.
    + apply andb_true_iff in E2 as [_ Hv]. apply is_vulnerable_true in Hv.
      split; [apply touched_refl|]. repeat split; auto.
    + split; apply touched_refl.
Qed.

Lemma contact_with_one_side self other :
  fst (contact_with K self other) = self \/ snd (contact_with K self other) = other.
Proof.
  unfold contact_with.
  destruct (is_infected K other && is_vulnerable K self); simpl; auto.
  destruct (is_infected K self && is_vulnerable K other); simpl; auto.
Qed.

Lemma touched_insert pop0 pop i c c' :
  Forall2 (touched K) pop0 pop -> pop !! i = Some c -> touched K c c' ->
  Forall2 (touched K) pop0 (<[i := c']> pop).
Proof.
  intros HF Hi Hc.
  apply Forall2_same_length_lookup in HF as [Hlen HF].
  apply Forall2_same_length_lookup. split.
  - by rewrite length_insert.
  - intros k a b Ha Hb. destruct (decide (i = k)) as [->|Hne].
    + rewrite list_lookup_insert_eq in Hb by (eapply lookup_lt_Some; eauto).
      injection Hb as <-. eapply touched_trans; [|exact Hc]. eauto.
    + rewrite list_lookup_insert_ne in Hb by done. eauto.
Qed.

Lemma index_Some {A} (l : list A) i a : l !! i = Some a -> index l i = Ok a.
Proof. unfold index. by intros ->. Qed.

Lemma visit_spec pop0 pop i j :
  Forall2 (touched K) pop0 pop -> i <> j ->
  (i < length pop0)%nat -> (j < length pop0)%nat ->
  exists pop' called,
    visit K i j pop = Ok (pop', called)
    /\ Forall2 (touched K) pop0 pop'
    /\ event_ok K pop0 (mkEvent i j called).
Proof.
  intros HF Hij Hi Hj.
  destruct (lookup_lt_is_Some_2 pop0 i Hi) as [a1 Ha1].
  destruct (lookup_lt_is_Some_2 pop0 j Hj) as [a2 Ha2].
  destruct (Forall2_lookup_l _ _ _ _ _ HF Ha1) as (c1 & Hc1 & Ht1).
  destruct (Forall2_lookup_l _ _ _ _ _ HF Ha2) as (c2 & Hc2 & Ht2).
  unfold visit. rewrite (index_Some _ _ _ Hc1), (index_Some _ _ _ Hc2). simpl.
  assert (Hloc : Point_distance (location c1) (location c2)
                 = Point_distance (location a1) (location a2)).
  { destruct Ht1 as (-> & _), Ht2 as (-> & _). reflexivity. }
  destruct (Rlt_dec _ _) as [Hd | Hd].
  - destruct (contact_with K c1 c2) as [c1' c2'] eqn:E.
    pose proof (contact_with_touched c1 c2) as [T1 T2]. rewrite E in T1, T2. simpl in *.
    eexists _, true. split; [reflexivity|]. split.
    + apply touched_insert with (c := c2).
      * by apply touched_insert with (c := c1).
      * by rewrite list_lookup_insert_ne.
      * done.
    + exists a1, a2. simpl. rewrite <- Hloc. repeat split; auto.
  - eexists _, false. split; [reflexivity|]. split; [done|].
    exists a1, a2. simpl. rewrite <- Hloc. repeat split; [done | done | done | tauto].
Qed.

Lemma inner_loop_spec pop0 rounds : forall i j st,
  Forall2 (touched K) pop0 (fst st) ->
  (i < j)%nat -> (j + rounds <= length pop0)%nat ->
  exists pop' new,
    inner_loop K rounds i j st = Ok (pop', snd st ++ new)
    /\ Forall2 (touched K) pop0 pop'
    /\ map ev_pair new = map (fun j => (i, j)) (seq j rounds)
    /\ Forall (event_ok K pop0) new.
Proof.
  induction rounds as [|rounds IH]; intros i j [pop log] HF Hij Hlen; simpl in *.
  - exists pop, []. rewrite app_nil_r. auto.
  - destruct (visit_spec pop0 pop i j HF) as (pop1 & called & Hv & HF1 & Hev); [lia..|].
    rewrite Hv. simpl.
    destruct (IH i (S j) (pop1, log ++ [mkEvent i j called])) as (pop' & new & Hrun & HF' & Hmap & Hok);
      [done | lia | lia |].
    exists pop', (mkEvent i j called :: new). simpl in *.
    rewrite Hrun, <- app_assoc. simpl. repeat split; auto.
    by rewrite Hmap.
Qed.

Lemma outer_loop_spec pop0 rounds : forall i st,
  Forall2 (touched K) pop0 (fst st) ->
  (i + rounds <= length pop0)%nat ->
  exists pop' new,
    outer_loop K rounds (length pop0) i st = Ok (pop', snd st ++ new)
    /\ Forall2 (touched K) pop0 pop'
    /\ map ev_pair new = pairs_from (length pop0) i rounds
    /\ Forall (event_ok K pop0) new.
Proof.
  induction rounds as [|rounds IH]; intros i [pop log] HF Hlen; simpl in *.
  - exists pop, []. rewrite app_nil_r. auto.
  - destruct (lookup_lt_is_Some_2 pop i) as [c Hc].
    { rewrite <- (Forall2_length _ _ _ HF). lia. }
    rewrite (index_Some _ _ _ Hc). simpl.
    destruct (inner_loop_spec pop0 (length pop0 - (i + 1)) i (i + 1) (pop, log))
      as (pop1 & new1 & Hin & HF1 & Hmap1 & Hok1); [done | lia | lia |].
    rewrite Hin. simpl in *.
    destruct (IH (S i) (pop1, log ++ new1)) as (pop' & new & Hrun & HF' & Hmap & Hok);
      [done | lia |].
    exists pop', (new1 ++ new). simpl in *.
    rewrite Hrun, <- app_assoc. repeat split; auto.
    + unfold pairs_from in *. simpl. by rewrite map_app, Hmap1, Hmap.
    + by apply Forall_app.
Qed.

(** The scan never raises, leaves every cell where it is, and its log
    lists all pairs with truthful flags. *)
Lemma check_contacts_log_spec pop :
  exists pop' log,
    check_contacts_log K pop = Ok (pop', log)
    /\ Forall2 (touched K) pop pop'
    /\ map ev_pair log = all_pairs (length pop)
    /\ Forall (event_ok K pop) log.
Proof.
  unfold check_contacts_log, all_pairs. rewrite Nat.sub_0_r.
  destruct (outer_loop_spec pop (length pop) 0%nat (pop, [])) as (pop' & new & H);
    [apply Forall2_same_length_lookup; split; [done|]; simpl; intros; simplify_eq; apply touched_refl | simpl; lia |].
  exists pop', new. exact H.
Qed.

Lemma check_contacts_spec pop :
  exists pop', check_contacts K pop = Ok pop' /\ Forall2 (touched K) pop pop'.
Proof.
  destruct (check_contacts_log_spec pop) as (pop' & log & H & HF & _).
  exists pop'. unfold check_contacts. rewrite H. simpl. auto.
Qed.

Lemma elem_of_pairs_from n i rounds a b :
  (a, b) ∈ pairs_from n i rounds <-> (i <= a < i + rounds)%nat /\ (a < b < n)%nat.
Proof.
  unfold pairs_from. rewrite list_elem_of_In, in_flat_map. split.
  - intros (k & Hk & Hin). apply in_seq in Hk. apply in_map_iff in Hin as (j & Heq & Hj).
    apply in_seq in Hj. injection Heq as <- <-. lia.
  - intros [Ha Hb]. exists a. split; [apply in_seq; lia|].
    apply in_map_iff. exists b. split; [done|]. apply in_seq. lia.
Qed.

Lemma elem_of_all_pairs n a b : (a, b) ∈ all_pairs n <-> (a < b < n)%nat.
Proof. unfold all_pairs. rewrite elem_of_pairs_from. lia. Qed.

End Contacts.

(** ** One tick of the model, and runs of ticks *)


Section Ticks.

Variable K : Constants.
Implicit Types (c : Cell) (pop : list Cell) (m : Model).

Lemma tick_cells_map pop : tick_cells K pop = map (moved K) pop.
Proof. induction pop as [|c pop IH]; simpl; [done|]. by rewrite IH. Qed.

Lemma tick_cells_lookup pop i c :
  pop !! i = Some c -> tick_cells K pop !! i = Some (moved K c).
Proof. intros H. rewrite tick_cells_map, list_lookup_fmap, H. done. Qed.

Lemma moved_sickness c : sickness (moved K c) = aged K (sickness c).
Proof. unfold moved. by rewrite enforce_bounds_sickness, Cell_tick_sickness. Qed.

(** [tick()] never raises; it adds one to the clock, and each cell of the
    new population is the moved cell, possibly infected by the scan. *)
Lemma Model_tick_spec m :
  exists m', Model_tick K m = Ok m'
    /\ time m' = time m + 1
    /\ Forall2 (touched K) (tick_cells K (population m)) (population m').
Proof.
  unfold Model_tick.
  destruct (check_contacts_spec K (tick_cells K (population m))) as (pop' & Hc & HF).
  rewrite Hc. simpl. eexists. split; [reflexivity|]. simpl. auto.
Qed.

Lemma Model_tick_lookup m m' i c :
  Model_tick K m = Ok m' -> population m !! i = Some c ->
  exists c', population m' !! i = Some c' /\ touched K (moved K c) c'.
Proof.
  intros Ht Hc. destruct (Model_tick_spec m) as (m1 & Ht1 & _ & HF).
  rewrite Ht in Ht1. injection Ht1 as <-.
  eapply Forall2_lookup_l in HF; [|by apply tick_cells_lookup]. exact HF.
Qed.

Lemma Model_tick_time m m' : Model_tick K m = Ok m' -> time m' = time m + 1.
Proof.
  intros Ht. destruct (Model_tick_spec m) as (m1 & Ht1 & Htime & _).
  rewrite Ht in Ht1. by injection Ht1 as <-.
Qed.

Lemma Model_tick_length m m' :
  Model_tick K m = Ok m' -> length (population m') = length (population m).
Proof.
  intros Ht. destruct (Model_tick_spec m) as (m1 & Ht1 & _ & HF).
  rewrite Ht in Ht1. injection Ht1 as <-.
  apply Forall2_length in HF. rewrite <- HF, tick_cells_map. apply length_map.
Qed.

Lemma Model_ticks_total k : forall m, exists m', Model_ticks K k m = Ok m'.
Proof.
  induction k as [|k IH]; intros m; simpl; [eauto|].
  destruct (Model_tick_spec m) as (m1 & -> & _). simpl. apply IH.
Qed.

Lemma Model_ticks_S k m m' :
  Model_ticks K (S k) m = Ok m' <->
  exists m1, Model_tick K m = Ok m1 /\ Model_ticks K k m1 = Ok m'.
Proof.
  simpl. destruct (Model_tick K m) as [m1|e]; simpl.
  - split; [eauto|]. by intros (? & [= <-] & ?).
  - split; [done|]. by intros (? & ? & ?).
Qed.

Lemma Model_ticks_time k : forall m m',
  Model_ticks K k m = Ok m' -> time m' = time m + Z.of_nat k.
Proof.
  induction k as [|k IH]; intros m m' H.
  - injection H as <-. lia.
  - apply Model_ticks_S in H as (m1 & H1 & H2).
    rewrite (IH _ _ H2), (Model_tick_time _ _ H1). lia.
Qed.


Lemma aged_settled s : sentinels_separate K -> settled K s -> settled K (aged K s).
Proof.
  intros (Hv & Hi & Hne) [Hs | ->].
  - rewrite aged_infected by done. destruct (_ >? _); [by right | left; lia].
  - rewrite aged_immune by done. by right.
Qed.

Lemma settled_not_vulnerable s : sentinels_separate K -> settled K s -> s <> K.(VULNERABLE).
Proof. intros (Hv & Hi & Hne) [Hs | ->]; [lia | congruence]. Qed.

(** The scan leaves a settled K cell alone: its level after a tick is the
    aged level. *)
Lemma Model_tick_settled m m' i c :
  sentinels_separate K -> settled K (sickness c) ->
  Model_tick K m = Ok m' -> population m !! i = Some c ->
  exists c', population m' !! i = Some c' /\ sickness c' = aged K (sickness c).
Proof.
  intros HK Hs Ht Hc. destruct (Model_tick_lookup _ _ _ _ Ht Hc) as (c' & Hc' & _ & _ & Hsick).
  exists c'. split; [done|]. rewrite moved_sickness in Hsick.
  destruct Hsick as [-> | [Hv _]]; [done|].
  by apply aged_settled, settled_not_vulnerable in Hs.
Qed.

Lemma iter_aged_settled k s :
  sentinels_separate K -> settled K s -> settled K (Nat.iter k (aged K) s).
Proof. intros HK Hs. induction k; simpl; [done|]. by apply aged_settled. Qed.

Lemma Model_ticks_settled k : forall m m' i c,
  sentinels_separate K -> settled K (sickness c) ->
  Model_ticks K k m = Ok m' -> population m !! i = Some c ->
  exists c', population m' !! i = Some c'
    /\ sickness c' = Nat.iter k (aged K) (sickness c).
Proof.
  induction k as [|k IH]; intros m m' i c HK Hs Hrun Hc.
  - injection Hrun as <-. eauto.
  - apply Model_ticks_S in Hrun as (m1 & H1 & H2).
    destruct (Model_tick_settled _ _ _ _ HK Hs H1 Hc) as (c1 & Hc1 & Hs1).
    destruct (IH m1 m' i c1 HK) as (c' & Hc' & Hs'); [rewrite Hs1; by apply aged_settled | done | done |].
    exists c'. split; [done|]. rewrite Hs', Hs1. symmetry. apply Nat.iter_succ_r.
Qed.

(** The level of a freshly infected cell, [k] ticks later. *)
Lemma iter_aged_infected (k : nat) :
  K.(IMMUNE) < K.(INFECTED) -> K.(INFECTED) <= K.(RECOVERY_PERIOD) ->
  Nat.iter k (aged K) K.(INFECTED) =
    if Z.of_nat k <=? K.(RECOVERY_PERIOD) - K.(INFECTED)
    then K.(INFECTED) + Z.of_nat k else K.(IMMUNE).
Proof.
  intros Hi Hle. induction k as [|k IH].
  - simpl Nat.iter. change (Z.of_nat 0) with 0.
    destruct (Z.leb_spec 0 (K.(RECOVERY_PERIOD) - K.(INFECTED))); lia.
  - rewrite Nat.iter_succ, IH.
    destruct (Z.leb_spec (Z.of_nat k) (K.(RECOVERY_PERIOD) - K.(INFECTED))) as [H1|H1];
    destruct (Z.leb_spec (Z.of_nat (S k)) (K.(RECOVERY_PERIOD) - K.(INFECTED))) as [H2|H2];
      try lia.
    + rewrite aged_infected by lia.
      destruct (Z.gtb_spec (K.(INFECTED) + Z.of_nat k + 1) K.(RECOVERY_PERIOD)); lia.
    + rewrite aged_infected by lia.
      destruct (Z.gtb_spec (K.(INFECTED) + Z.of_nat k + 1) K.(RECOVERY_PERIOD)); lia.
    + by apply aged_immune.
Qed.

End Ticks.

(** ** Construction *)


Section Construction.

Variable K : Constants.
Variable draws : nat -> R.
Implicit Types (c : Cell) (pop : list Cell) (m : Model).

Lemma populate_eq n force speed : forall pop s,
  populate K draws n force speed pop s =
    (pop ++ map (fun k => force (fresh_cell K draws speed (s + 3 * k))) (seq 0 n),
     (s + 3 * n)%nat).
Proof.
  induction n as [|n IH]; intros pop s.
  - simpl. rewrite app_nil_r. f_equal. lia.
  - cbn [populate]. unfold random_location, random_direction, random. simpl fst.
    cbv beta iota zeta. rewrite IH. f_equal.
    + rewrite <- app_assoc. f_equal. cbn [seq map app]. f_equal.
      * unfold fresh_cell. by rewrite Nat.mul_0_r, Nat.add_0_r.
      * rewrite <- seq_shift, map_map. apply map_ext. intros k. do 2 f_equal. lia.
    + lia.
Qed.

Lemma Model_init_refuses cells speed num_infected num_immune s :
  Model_init K draws cells speed num_infected num_immune s = Raise ValueError
  <-> refused cells num_infected num_immune.
Proof.
  unfold Model_init, refused. rewrite !populate_eq.
  destruct (_ || _) eqn:E.
  - split; [intros _|done]. rewrite !orb_true_iff in E. lia.
  - split; [done|]. intros H. rewrite !orb_false_iff in E. lia.
Qed.


Lemma Model_init_accepts cells speed num_infected num_immune s :
  ~ refused cells num_infected num_immune ->
  Model_init K draws cells speed num_infected num_immune s
  = Ok (mkModel (built K draws cells speed num_infected num_immune s) 0).
Proof.
  intros H. unfold Model_init, refused, built in *. rewrite !populate_eq.
  destruct (_ || _) eqn:E.
  - rewrite !orb_true_iff in E. lia.
  - simpl. by rewrite <- app_assoc.
Qed.

Lemma built_sickness cells speed num_infected num_immune s :
  map sickness (built K draws cells speed num_infected num_immune s)
  = replicate (Z.to_nat num_immune) K.(IMMUNE)
    ++ replicate (Z.to_nat num_infected) K.(INFECTED)
    ++ replicate (Z.to_nat (cells - num_infected - num_immune)) K.(VULNERABLE).
Proof.
  assert (Hconst : forall (f : nat -> Cell) v n,
            (forall k, sickness (f k) = v) -> map sickness (map f (seq 0 n)) = replicate n v).
  { intros f v n Hf. rewrite map_map. generalize 0%nat.
    induction n as [|n IH]; intros st; simpl; [done|]. by rewrite Hf, IH. }
  unfold built. rewrite !map_app. repeat f_equal; by apply Hconst.
Qed.

Lemma built_level_ok cells speed num_infected num_immune s :
  Forall (level_ok K) (built K draws cells speed num_infected num_immune s).
Proof.
  unfold built. rewrite !Forall_app, !Forall_map, !Forall_forall. unfold level_ok.
  repeat split; intros k _; simpl; auto. right; right; lia.
Qed.

End Construction.

(** ** The sample data *)

Lemma sample_sentinels_separate : sentinels_separate sample_constants.
Proof. unfold sentinels_separate; simpl; lia. Qed.

Lemma sample_bounds_ordered : bounds_ordered sample_constants.
Proof. unfold bounds_ordered; simpl; lra. Qed.

Lemma sample_bounds_cover_draws : bounds_cover_draws sample_constants.
Proof. unfold bounds_cover_draws; simpl; lra. Qed.

(** The level of a cell infected at level 1, tick after tick. *)
Example sample_levels :
  map (fun k => Nat.iter k (aged sample_constants) 1) [0; 1; 2; 3; 4]%nat
  = [1; 2; 3; -1; -1].
Proof. reflexivity. Qed.

Example sample_contact :
  contact_with sample_constants sample_vulnerable sample_infected
  = (sample_infected, sample_infected).
Proof. reflexivity. Qed.

Example sample_contact_immune :
  contact_with sample_constants (immunize sample_constants sample_vulnerable) sample_infected
  = (immunize sample_constants sample_vulnerable, sample_infected).
Proof. reflexivity. Qed.

Example sample_init_refused :
  Model_init sample_constants sample_draws 5 1 0 0 0 = Raise ValueError
  /\ Model_init sample_constants sample_draws 5 1 5 0 0 = Raise ValueError
  /\ Model_init sample_constants sample_draws 5 1 3 3 0 = Raise ValueError
  /\ Model_init sample_constants sample_draws 5 1 1 (-1) 0 = Raise ValueError.
Proof. repeat split. Qed.

Example sample_init_levels :
  match Model_init sample_constants sample_draws 5 1 2 1 0 with
  | Ok m => map sickness (population m)
  | Raise _ => []
  end = [-1; 1; 1; 0; 0].
Proof. reflexivity. Qed.

(** C1. [Model(cells, speed, num_infected, num_immune)] raises
    [ValueError] exactly on the refused arguments ([num_infected <= 0],
    [num_infected >= cells], [num_immune < 0], [num_immune >= cells] or
    [num_infected + num_immune > cells]).  On all others it returns a model
    of [cells] cells, at time 0, whose levels are [num_immune] times the
    Immune sentinel, then [num_infected] times the infected threshold, then
    [cells - num_infected - num_immune] times the Vulnerable sentinel: the
    first group answers [is_immune], the second [is_infected], the third
    [is_vulnerable]. *)
Theorem Model_init_validation (K : Constants) (draws : nat -> R)
    (cells : Z) (speed : R) (num_infected num_immune : Z) (s : nat) :
  (refused cells num_infected num_immune
   /\ Model_init K draws cells speed num_infected num_immune s = Raise ValueError)
  \/ (~ refused cells num_infected num_immune
      /\ exists m,
          Model_init K draws cells speed num_infected num_immune s = Ok m
          /\ time m = 0
          /\ length (population m) = Z.to_nat cells
          /\ map sickness (population m)
             = replicate (Z.to_nat num_immune) K.(IMMUNE)
               ++ replicate (Z.to_nat num_infected) K.(INFECTED)
               ++ replicate (Z.to_nat (cells - num_infected - num_immune)) K.(VULNERABLE)
          /\ Forall (fun c => is_immune K c = true)
               (take (Z.to_nat num_immune) (population m))
          /\ Forall (fun c => is_infected K c = true)
               (take (Z.to_nat num_infected) (drop (Z.to_nat num_immune) (population m)))
          /\ Forall (fun c => is_vulnerable K c = true)
               (drop (Z.to_nat num_immune + Z.to_nat num_infected) (population m))).
Proof.
  destruct (decide (refused cells num_infected num_immune)) as [H | H].
  - left. split; [done|]. by apply Model_init_refuses.
  - right. split; [done|]. eexists. split; [by apply Model_init_accepts|]. simpl.
    pose proof (built_sickness K draws cells speed num_infected num_immune s) as Hs.
    set (pop := built K draws cells speed num_infected num_immune s) in *.
    assert (Hlen : length pop = Z.to_nat cells).
    { rewrite <- (length_map sickness), Hs, !length_app, !length_replicate.
      unfold refused in H. lia. }
    split; [done|]. split; [done|]. split; [done|].
    assert (Hlook : forall (P : Cell -> Prop) (v : Z) (l : list Cell),
              (forall c, sickness c = v -> P c) ->
              Forall (fun z => z = v) (map sickness l) -> Forall P l).
    { intros P v l HP Hl. rewrite Forall_map in Hl. eapply Forall_impl; [exact Hl|]. auto. }
    repeat split.
    + apply (Hlook _ K.(IMMUNE)); [intros c; apply is_immune_true|].
      rewrite <- firstn_map, Hs, take_app_length'; [|by rewrite length_replicate].
      apply Forall_replicate. done.
    + apply (Hlook _ K.(INFECTED)); [intros c Hc; apply is_infected_true; lia|].
      rewrite <- firstn_map, <- skipn_map, Hs, drop_app_length'; [|by rewrite length_replicate].
      rewrite take_app_length'; [|by rewrite length_replicate].
      apply Forall_replicate. done.
    + apply (Hlook _ K.(VULNERABLE)); [intros c; apply is_vulnerable_true|].
      rewrite <- skipn_map, Hs, <- drop_drop, drop_app_length'; [|by rewrite length_replicate].
      rewrite drop_app_length'; [|by rewrite length_replicate].
      apply Forall_replicate. done.
Qed.


(** C2. With separate sentinels, [self.contact_with(other)] infects
    [self] when [other] is infected and [self] vulnerable; otherwise it
    infects [other] when [self] is infected and [other] vulnerable;
    otherwise it changes nothing.  To infect is to set the level to the
    infected threshold, which answers [is_infected].  At most one of the two
    cells is changed, and a cell that is immune or infected before the call
    is the same after it. *)
Theorem contact_with_rule (K : Constants) (self other : Cell) :
  sentinels_separate K ->
  let after := contact_with K self other in
  (is_infected K other = true /\ is_vulnerable K self = true ->
     after = (contract_disease K self, other))
  /\ (~ (is_infected K other = true /\ is_vulnerable K self = true) ->
      is_infected K self = true /\ is_vulnerable K other = true ->
      after = (self, contract_disease K other))
  /\ (~ (is_infected K other = true /\ is_vulnerable K self = true) ->
      ~ (is_infected K self = true /\ is_vulnerable K other = true) ->
      after = (self, other))
  /\ (forall c, contract_disease K c = mkCell (location c) (direction c) K.(INFECTED)
                /\ is_infected K (contract_disease K c) = true)
  /\ (fst after = self \/ snd after = other)
  /\ (is_immune K self = true \/ is_infected K self = true -> fst after = self)
  /\ (is_immune K other = true \/ is_infected K other = true -> snd after = other).
Proof.
  intros (Hv & Hi & Hne) after. subst after.
  split; [|split; [|split; [|split; [|split; [|split]]]]].
  - intros [H1 H2]. rewrite contact_with_cases, H1, H2. reflexivity.
  - intros Hn [H1 H2]. rewrite contact_with_cases, H1, H2.
    destruct (is_infected K other && is_vulnerable K self) eqn:E; [|reflexivity].
    apply andb_true_iff in E. tauto.
  - intros Hn1 Hn2. rewrite contact_with_cases.
    destruct (is_infected K other && is_vulnerable K self) eqn:E1;
      [apply andb_true_iff in E1; tauto|].
    destruct (is_infected K self && is_vulnerable K other) eqn:E2;
      [apply andb_true_iff in E2; tauto|]. reflexivity.
  - intros c. split; [reflexivity|]. apply is_infected_true. simpl. lia.
  - apply contact_with_one_side.
  - intros Hs. rewrite contact_with_cases.
    assert (is_vulnerable K self = false) as ->.
    { apply is_vulnerable_false. destruct Hs as [Hs | Hs].
      - apply is_immune_true in Hs. congruence.
      - apply is_infected_true in Hs. lia. }
    rewrite andb_false_r. by destruct (_ && _).
  - intros Hs. rewrite contact_with_cases.
    assert (is_vulnerable K other = false) as ->.
    { apply is_vulnerable_false. destruct Hs as [Hs | Hs].
      - apply is_immune_true in Hs. congruence.
      - apply is_infected_true in Hs. lia. }
    rewrite andb_false_r. by destruct (_ && _).
Qed.

Lemma contact_with_rule_witness :
  sentinels_separate sample_constants
  /\ contact_with sample_constants sample_vulnerable sample_infected
     = (contract_disease sample_constants sample_vulnerable, sample_infected).
Proof.
  split; [exact sample_sentinels_separate|].
  apply (contact_with_rule sample_constants sample_vulnerable sample_infected
           sample_sentinels_separate).
  split; reflexivity.
Defined.

(** C3, as amended.  With separate sentinels and a recovery period not
    below the infected threshold, take a cell whose level is the infected
    threshold at time [T] (it has just been infected).  [k] ticks later the
    clock reads [T + k]; the cell is infected, with level
    [INFECTED + k], as long as [k <= RECOVERY_PERIOD - INFECTED], and it is
    immune from [k = RECOVERY_PERIOD - INFECTED + 1] on.  So it becomes
    immune at exactly tick [T + (RECOVERY_PERIOD - INFECTED) + 1]. *)
Theorem recovery_timing (K : Constants) (m : Model) (i : nat) (c : Cell) (k : nat) :
  sentinels_separate K ->
  K.(INFECTED) <= K.(RECOVERY_PERIOD) ->
  population m !! i = Some c ->
  sickness c = K.(INFECTED) ->
  exists m' c',
    Model_ticks K k m = Ok m'
    /\ time m' = time m + Z.of_nat k
    /\ population m' !! i = Some c'
    /\ (Z.of_nat k <= K.(RECOVERY_PERIOD) - K.(INFECTED) ->
        sickness c' = K.(INFECTED) + Z.of_nat k
        /\ is_infected K c' = true /\ is_immune K c' = false)
    /\ (K.(RECOVERY_PERIOD) - K.(INFECTED) + 1 <= Z.of_nat k ->
        is_immune K c' = true /\ is_infected K c' = false).
Proof.
  intros HK Hle Hc Hs.
  destruct (Model_ticks_total K k m) as [m' Hrun].
  destruct (Model_ticks_settled K k m m' i c HK) as (c' & Hc' & Hs');
    [left; lia | done | done |].
  pose proof HK as (Hv & Hi & Hne).
  rewrite Hs, iter_aged_infected in Hs' by done.
  exists m', c'. split; [done|]. split; [by apply (Model_ticks_time K k)|].
  split; [done|]. split; intros Hk.
  - destruct (Z.leb_spec (Z.of_nat k) (K.(RECOVERY_PERIOD) - K.(INFECTED))); [|lia].
    split; [done|]. split; [apply is_infected_true; lia | apply is_immune_false; lia].
  - destruct (Z.leb_spec (Z.of_nat k) (K.(RECOVERY_PERIOD) - K.(INFECTED))); [lia|].
    split; [by apply is_immune_true | apply is_infected_false; lia].
Qed.

Lemma recovery_timing_witness :
  exists m' c',
    Model_ticks sample_constants 3 sample_model = Ok m'
    /\ time m' = time sample_model + 3
    /\ population m' !! 0%nat = Some c'
    /\ (3 <= 3 - 1 -> sickness c' = 1 + 3
        /\ is_infected sample_constants c' = true
        /\ is_immune sample_constants c' = false)
    /\ (3 - 1 + 1 <= 3 -> is_immune sample_constants c' = true
        /\ is_infected sample_constants c' = false).
Proof.
  apply (recovery_timing sample_constants sample_model 0 sample_infected 3
           sample_sentinels_separate); [simpl; lia | reflexivity | reflexivity].
Defined.

(** C3, as first stated, fails.  In the sample configuration the infected
    threshold is 1 and the recovery period 3.  A cell infected at time [T]
    is immune three ticks later, at [T + RECOVERY_PERIOD], one tick before
    [T + RECOVERY_PERIOD + 1]. *)
Lemma recovery_timing_counterexample :
  sentinels_separate sample_constants
  /\ population sample_model !! 0%nat = Some sample_infected
  /\ sickness sample_infected = sample_constants.(INFECTED)
  /\ exists m' c',
      Model_ticks sample_constants 3 sample_model = Ok m'
      /\ population m' !! 0%nat = Some c'
      /\ is_immune sample_constants c' = true
      /\ time m' = time sample_model + sample_constants.(RECOVERY_PERIOD)
      /\ time m' < time sample_model + sample_constants.(RECOVERY_PERIOD) + 1.
Proof.
  split; [exact sample_sentinels_separate|]. split; [reflexivity|]. split; [reflexivity|].
  destruct (Model_ticks_total sample_constants 3 sample_model) as [m' Hrun].
  destruct (Model_ticks_settled sample_constants 3 sample_model m' 0 sample_infected
              sample_sentinels_separate) as (c' & Hc' & Hs');
    [left; simpl; lia | done | done |].
  exists m', c'. split; [done|]. split; [done|].
  split; [apply is_immune_true; rewrite Hs'; reflexivity|].
  rewrite (Model_ticks_time _ _ _ _ Hrun). simpl. lia.
Qed.

(** ** Reflection at the bounds *)

Section Bounds.

Variable K : Constants.
Hypothesis HK : bounds_ordered K.

Ltac bounds_cases :=
  unfold enforce_bounds;
  repeat match goal with
         | |- context [Rgt_dec ?a ?b] => destruct (Rgt_dec a b)
         | |- context [Rlt_dec ?a ?b] => destruct (Rlt_dec a b)
         end;
  cbn [location direction sickness x y] in *.

Lemma enforce_bounds_x (c : Cell) :
  ((x (location c) > K.(MAX_X))%R ->
     x (location (enforce_bounds K c)) = K.(MAX_X)
     /\ x (direction (enforce_bounds K c)) = (- x (direction c))%R)
  /\ ((x (location c) < K.(MIN_X))%R ->
     x (location (enforce_bounds K c)) = K.(MIN_X)
     /\ x (direction (enforce_bounds K c)) = (- x (direction c))%R)
  /\ ((K.(MIN_X) <= x (location c) <= K.(MAX_X))%R ->
     x (location (enforce_bounds K c)) = x (location c)
     /\ x (direction (enforce_bounds K c)) = x (direction c)).
Proof.
  destruct HK as [Hx Hy].
  repeat split; intros; bounds_cases; lra.
Qed.

Lemma enforce_bounds_y (c : Cell) :
  ((y (location c) > K.(MAX_Y))%R ->
     y (location (enforce_bounds K c)) = K.(MAX_Y)
     /\ y (direction (enforce_bounds K c)) = (- y (direction c))%R)
  /\ ((y (location c) < K.(MIN_Y))%R ->
     y (location (enforce_bounds K c)) = K.(MIN_Y)
     /\ y (direction (enforce_bounds K c)) = (- y (direction c))%R)
  /\ ((K.(MIN_Y) <= y (location c) <= K.(MAX_Y))%R ->
     y (location (enforce_bounds K c)) = y (location c)
     /\ y (direction (enforce_bounds K c)) = y (direction c)).
Proof.
  destruct HK as [Hx Hy].
  repeat split; intros; bounds_cases; lra.
Qed.

(** A cell within the bounds is left as it is. *)
Lemma enforce_bounds_inside (c : Cell) :
  inside K (location c) -> enforce_bounds K c = c.
Proof.
  intros [Hx Hy]. destruct c as [[lx ly] [dx dy] s]. simpl in *.
  bounds_cases; (lra || reflexivity).
Qed.

Lemma Model_tick_moved (m m' : Model) (i : nat) (c : Cell) :
  Model_tick K m = Ok m' -> population m !! i = Some c ->
  exists c', population m' !! i = Some c'
    /\ location c' = location (enforce_bounds K (Cell_tick K c))
    /\ direction c' = direction (enforce_bounds K (Cell_tick K c)).
Proof.
  intros Ht Hc. destruct (Model_tick_lookup K _ _ _ _ Ht Hc) as (c' & Hc' & Hl & Hd & _).
  exists c'. auto.
Qed.

End Bounds.

(** C4. With ordered bounds, [enforce_bounds] treats each axis on its
    own.  A coordinate above its upper bound becomes the upper bound, one
    below its lower bound becomes the lower bound, and in both cases the
    velocity component of that axis is negated; a coordinate within its
    bounds is kept, with its velocity component.  The two axes are
    independent, so a cell beyond a corner is clamped and reflected on
    both.  The level is not changed.  After a [tick()] every cell has the
    location and direction that [enforce_bounds] gives to the advanced
    cell; in particular a cell at [MAX_X + eps] with positive x-velocity
    is at [MAX_X] after one tick, with the x-velocity negated. *)
Theorem boundary_reflection (K : Constants) :
  bounds_ordered K ->
  (forall c : Cell,
     let c' := enforce_bounds K c in
     ((x (location c) > K.(MAX_X))%R ->
        x (location c') = K.(MAX_X) /\ x (direction c') = (- x (direction c))%R)
     /\ ((x (location c) < K.(MIN_X))%R ->
        x (location c') = K.(MIN_X) /\ x (direction c') = (- x (direction c))%R)
     /\ ((K.(MIN_X) <= x (location c) <= K.(MAX_X))%R ->
        x (location c') = x (location c) /\ x (direction c') = x (direction c))
     /\ ((y (location c) > K.(MAX_Y))%R ->
        y (location c') = K.(MAX_Y) /\ y (direction c') = (- y (direction c))%R)
     /\ ((y (location c) < K.(MIN_Y))%R ->
        y (location c') = K.(MIN_Y) /\ y (direction c') = (- y (direction c))%R)
     /\ ((K.(MIN_Y) <= y (location c) <= K.(MAX_Y))%R ->
        y (location c') = y (location c) /\ y (direction c') = y (direction c))
     /\ sickness c' = sickness c)
  /\ (forall (m m' : Model) (i : nat) (c : Cell),
        Model_tick K m = Ok m' -> population m !! i = Some c ->
        exists c', population m' !! i = Some c'
          /\ location c' = location (enforce_bounds K (Cell_tick K c))
          /\ direction c' = direction (enforce_bounds K (Cell_tick K c))
          /\ forall eps : R,
               (0 < eps)%R -> x (location c) = (K.(MAX_X) + eps)%R ->
               (0 < x (direction c))%R ->
               x (location c') = K.(MAX_X)
               /\ x (direction c') = (- x (direction c))%R
               /\ (x (direction c') < 0)%R).
Proof.
  intros HK. split.
  - intros c c'. subst c'.
    pose proof (enforce_bounds_x K HK c) as (H1 & H2 & H3).
    pose proof (enforce_bounds_y K HK c) as (H4 & H5 & H6).
    split; [exact H1|]. split; [exact H2|]. split; [exact H3|].
    split; [exact H4|]. split; [exact H5|]. split; [exact H6|].
    apply enforce_bounds_sickness.
  - intros m m' i c Ht Hc.
    destruct (Model_tick_moved K m m' i c Ht Hc) as (c' & Hc' & Hl & Hd).
    exists c'. split; [done|]. split; [done|]. split; [done|].
    intros eps Heps Hx Hdx. rewrite Hl, Hd.
    pose proof (enforce_bounds_x K HK (Cell_tick K c)) as (H1 & _ & _).
    rewrite Cell_tick_location, Cell_tick_direction in H1. simpl in H1.
    destruct H1 as [E1 E2]; [lra|].
    rewrite E1, E2. repeat split; lra.
Qed.

Lemma boundary_reflection_witness :
  bounds_ordered sample_constants
  /\ location (enforce_bounds sample_constants
                 (mkCell (mkPoint 201 300) (mkPoint 1 2) 0)) = mkPoint 200 200
  /\ x (direction (enforce_bounds sample_constants
                     (mkCell (mkPoint 201 300) (mkPoint 1 2) 0))) = Ropp 1
  /\ y (direction (enforce_bounds sample_constants
                     (mkCell (mkPoint 201 300) (mkPoint 1 2) 0))) = Ropp 2.
Proof.
  split; [exact sample_bounds_ordered|].
  destruct (boundary_reflection sample_constants sample_bounds_ordered) as [H _].
  destruct (H (mkCell (mkPoint 201 300) (mkPoint 1 2) 0)) as (Hx & _ & _ & Hy & _).
  destruct Hx as [Hx1 Hx2]; [simpl; lra|].
  destruct Hy as [Hy1 Hy2]; [simpl; lra|].
  split; [|split; [exact Hx2 | exact Hy2]].
  destruct (location _) as [lx ly]. simpl in Hx1, Hy1. rewrite Hx1, Hy1. reflexivity.
Defined.

(** ** The pairs of the scan *)

Lemma pairs_from_S (n i rounds : nat) :
  pairs_from n i (S rounds)
  = map (fun j => (i, j)) (seq (i + 1) (n - (i + 1))) ++ pairs_from n (S i) rounds.
Proof. reflexivity. Qed.


(** C6. [tick()] never raises.  It adds exactly one to the clock; it
    advances and then reflects every cell; and the scan runs on the
    population so obtained: every flag of its log compares the locations
    the two cells have after they were advanced and reflected in this tick,
    and these are the locations the cells have when [tick()] returns. *)
Theorem tick_order (K : Constants) (m : Model) :
  exists m' log,
    Model_tick K m = Ok m'
    /\ time m' = time m + 1
    /\ check_contacts_log K (map (fun c => enforce_bounds K (Cell_tick K c)) (population m))
       = Ok (population m', log)
    /\ (forall i j, (i, j) ∈ map ev_pair log <-> (i < j < length (population m))%nat)
    /\ Forall (fun e => exists c1 c2,
                 population m !! ev_i e = Some c1 /\ population m !! ev_j e = Some c2
                 /\ (ev_called e = true <->
                     (Point_distance (location (enforce_bounds K (Cell_tick K c1)))
                                     (location (enforce_bounds K (Cell_tick K c2)))
                      < K.(CELL_RADIUS))%R)) log
    /\ Forall2 (fun c c' =>
                  location c' = location (enforce_bounds K (Cell_tick K c))
                  /\ direction c' = direction (enforce_bounds K (Cell_tick K c)))
         (population m) (population m').
Proof.
  destruct (check_contacts_log_spec K (tick_cells K (population m)))
    as (pop' & log & Hrun & HF & Hpairs & Hev).
  exists (mkModel pop' (time m + 1)), log.
  split; [unfold Model_tick, check_contacts; by rewrite Hrun|].
  split; [done|]. rewrite tick_cells_map in *. unfold moved in *.
  split; [done|]. split; [|split].
  - intros i j. rewrite Hpairs, length_map. apply elem_of_all_pairs.
  - eapply Forall_impl; [exact Hev|]. intros e (c1 & c2 & H1 & H2 & Hiff).
    rewrite list_lookup_fmap in H1, H2.
    destruct (population m !! ev_i e) as [a1|] eqn:E1; [|done].
    destruct (population m !! ev_j e) as [a2|] eqn:E2; [|done].
    simpl in H1, H2. injection H1 as <-. injection H2 as <-.
    exists a1, a2. auto.
  - simpl.
    apply (proj1 (Forall2_fmap_l (fun c => enforce_bounds K (Cell_tick K c)) (touched K) _ _)) in HF.
    eapply Forall2_impl; [exact HF|]. intros c c' (Hl & Hd & _). auto.
Qed.

(** ** Status over time *)

Section Status.

Variable K : Constants.
Hypothesis HK : sentinels_separate K.

Lemma settled_of_status (c : Cell) :
  is_infected K c = true \/ is_immune K c = true -> settled K (sickness c).
Proof.
  intros [H | H]; [left; by apply is_infected_true | right; by apply is_immune_true].
Qed.

Lemma status_of_settled (c : Cell) :
  settled K (sickness c) ->
  (is_infected K c = true \/ is_immune K c = true) /\ is_vulnerable K c = false.
Proof.
  intros Hs. split.
  - destruct Hs as [H | H]; [left; by apply is_infected_true | right; by apply is_immune_true].
  - apply is_vulnerable_false. by apply settled_not_vulnerable.
Qed.

Lemma iter_aged_immune (k : nat) : Nat.iter k (aged K) K.(IMMUNE) = K.(IMMUNE).
Proof.
  destruct HK as (_ & Hi & _).
  induction k as [|k IH]; simpl; [done|]. rewrite IH. by apply aged_immune.
Qed.

(** One tick, seen from one cell. *)
Lemma Model_tick_status (m : Model) (i : nat) (c : Cell) :
  K.(VULNERABLE) <= K.(RECOVERY_PERIOD) ->
  population m !! i = Some c ->
  exists m' c',
    Model_tick K m = Ok m' /\ population m' !! i = Some c'
    /\ (is_vulnerable K c = true ->
        is_vulnerable K (Cell_tick K c) = true
        /\ (is_vulnerable K c' = true
            \/ (sickness c' = K.(INFECTED) /\ is_infected K c' = true)))
    /\ (is_infected K c = true ->
        sickness c' = sickness (Cell_tick K c)
        /\ (is_infected K c' = true \/ is_immune K c' = true))
    /\ (is_immune K c = true ->
        sickness c' = sickness (Cell_tick K c) /\ is_immune K c' = true).
Proof.
  intros Hrp Hc. pose proof HK as (Hv & Hi & Hne).
  destruct (Model_tick_spec K m) as (m' & Ht & _).
  destruct (Model_tick_lookup K m m' i c Ht Hc) as (c' & Hc' & _ & _ & Hs).
  rewrite moved_sickness in Hs.
  exists m', c'. split; [done|]. split; [done|]. split; [|split].
  - intros Hvul. apply is_vulnerable_true in Hvul.
    rewrite Hvul, aged_vulnerable in Hs by done. split.
    + apply is_vulnerable_true. by rewrite Cell_tick_sickness, Hvul, aged_vulnerable.
    + destruct Hs as [Hs | [_ Hs]]; [left; by apply is_vulnerable_true|].
      right. split; [done|]. apply is_infected_true. lia.
  - intros Hinf.
    assert (Hset : settled K (sickness c)) by (apply settled_of_status; auto).
    pose proof (aged_settled K _ HK Hset) as Hset'.
    destruct Hs as [Hs | [Hs _]]; [|by apply settled_not_vulnerable in Hset'].
    rewrite Cell_tick_sickness. split; [done|].
    rewrite <- Hs in Hset'. by apply status_of_settled in Hset' as [? _].
  - intros Himm.
    assert (Hset : settled K (sickness c)) by (apply settled_of_status; auto).
    pose proof (aged_settled K _ HK Hset) as Hset'.
    destruct Hs as [Hs | [Hs _]]; [|by apply settled_not_vulnerable in Hset'].
    rewrite Cell_tick_sickness. split; [done|].
    apply is_immune_true in Himm. apply is_immune_true.
    rewrite Hs, Himm. by apply aged_immune.
Qed.

(** Any number of ticks, seen from one cell. *)
Lemma Model_ticks_status (k : nat) (m : Model) (i : nat) (c : Cell) :
  population m !! i = Some c ->
  exists m' c',
    Model_ticks K k m = Ok m' /\ population m' !! i = Some c'
    /\ (is_immune K c = true -> is_immune K c' = true)
    /\ (is_infected K c = true ->
        (is_infected K c' = true \/ is_immune K c' = true)
        /\ is_vulnerable K c' = false).
Proof.
  intros Hc. destruct (Model_ticks_total K k m) as [m' Hrun].
  destruct (decide (settled K (sickness c))) as [Hset | Hn].
  - destruct (Model_ticks_settled K k m m' i c HK Hset Hrun Hc) as (c' & Hc' & Hs').
    exists m', c'. split; [done|]. split; [done|]. split.
    + intros Himm. apply is_immune_true in Himm. apply is_immune_true.
      rewrite Hs', Himm. apply iter_aged_immune.
    + intros _. apply status_of_settled. rewrite Hs'. by apply iter_aged_settled.
  - assert (Hlen : (i < length (population m'))%nat).
    { clear Hn. revert m c Hc Hrun. induction k as [|k IH]; intros m c Hc Hrun.
      - injection Hrun as <-. by eapply lookup_lt_Some.
      - apply Model_ticks_S in Hrun as (m1 & H1 & H2).
        destruct (Model_tick_lookup K _ _ _ _ H1 Hc) as (c1 & Hc1 & _). eauto. }
    destruct (lookup_lt_is_Some_2 _ _ Hlen) as [c' Hc'].
    exists m', c'. split; [done|]. split; [done|].
    split; intros H; exfalso; apply Hn, settled_of_status; auto.
Qed.

End Status.

(** C7. With separate sentinels and a Vulnerable sentinel not above the
    recovery period, take any cell of any model and any number of calls of
    [tick()], none of which raises.  If the cell is immune, it is immune
    afterwards.  If it is infected, it is infected or immune afterwards,
    and not vulnerable.  Within one tick a vulnerable cell stays
    vulnerable through its own advance and is, after the scan, vulnerable
    or newly infected (at the infected threshold); an infected cell has
    after the tick the level its own advance gave it, infected or immune;
    an immune cell stays immune. *)
Theorem status_monotone (K : Constants) (m : Model) (i : nat) (c : Cell) :
  sentinels_separate K ->
  K.(VULNERABLE) <= K.(RECOVERY_PERIOD) ->
  population m !! i = Some c ->
  (forall k : nat, exists m' c',
      Model_ticks K k m = Ok m' /\ population m' !! i = Some c'
      /\ (is_immune K c = true -> is_immune K c' = true)
      /\ (is_infected K c = true ->
          (is_infected K c' = true \/ is_immune K c' = true)
          /\ is_vulnerable K c' = false))
  /\ (exists m' c',
      Model_tick K m = Ok m' /\ population m' !! i = Some c'
      /\ (is_vulnerable K c = true ->
          is_vulnerable K (Cell_tick K c) = true
          /\ (is_vulnerable K c' = true
              \/ (sickness c' = K.(INFECTED) /\ is_infected K c' = true)))
      /\ (is_infected K c = true ->
          sickness c' = sickness (Cell_tick K c)
          /\ (is_infected K c' = true \/ is_immune K c' = true))
      /\ (is_immune K c = true ->
          sickness c' = sickness (Cell_tick K c) /\ is_immune K c' = true)).
Proof.
  intros HK Hrp Hc. split.
  - intros k. by apply Model_ticks_status.
  - by apply Model_tick_status.
Qed.

Lemma status_monotone_witness :
  exists m' c',
    Model_ticks sample_constants 5 sample_model = Ok m'
    /\ population m' !! 0%nat = Some c'
    /\ (is_infected sample_constants c' = true \/ is_immune sample_constants c' = true)
    /\ is_vulnerable sample_constants c' = false.
Proof.
  destruct (status_monotone sample_constants sample_model 0 sample_infected
              sample_sentinels_separate) as [H _]; [simpl; lia | reflexivity |].
  destruct (H 5%nat) as (m' & c' & Hrun & Hc' & _ & Hinf).
  exists m', c'. split; [exact Hrun|]. split; [exact Hc'|]. apply Hinf. reflexivity.
Defined.

(** ** The level invariant *)

Section Invariant.

Variable K : Constants.

Lemma level_ok_aged (c : Cell) :
  level_ok K c -> level_ok K (set_sickness c (aged K (sickness c))).
Proof.
  unfold level_ok, aged. simpl. intros H.
  destruct (Z.geb_spec (sickness c) K.(INFECTED));
    match goal with |- context [?a >? ?b] => destruct (Z.gtb_spec a b) end; lia.
Qed.

Lemma level_ok_Cell_tick (c : Cell) : level_ok K c -> level_ok K (Cell_tick K c).
Proof.
  intros H. apply level_ok_aged in H. unfold level_ok in *.
  rewrite Cell_tick_sickness. exact H.
Qed.

Lemma level_ok_enforce_bounds (c : Cell) : level_ok K c -> level_ok K (enforce_bounds K c).
Proof. unfold level_ok. by rewrite enforce_bounds_sickness. Qed.

Lemma level_ok_contract_disease (c : Cell) : level_ok K (contract_disease K c).
Proof. unfold level_ok. simpl. lia. Qed.

Lemma level_ok_immunize (c : Cell) : level_ok K (immunize K c).
Proof. unfold level_ok. simpl. lia. Qed.

Lemma level_ok_touched (c c' : Cell) : touched K c c' -> level_ok K c -> level_ok K c'.
Proof. unfold level_ok. intros (_ & _ & [-> | [_ ->]]) H; lia. Qed.

Lemma level_ok_contact_with (a b : Cell) :
  level_ok K a -> level_ok K b ->
  level_ok K (fst (contact_with K a b)) /\ level_ok K (snd (contact_with K a b)).
Proof.
  intros Ha Hb. destruct (contact_with_touched K a b) as [Ta Tb].
  split; eapply level_ok_touched; eauto.
Qed.

Lemma level_ok_Model_tick (m m' : Model) :
  Forall (level_ok K) (population m) -> Model_tick K m = Ok m' ->
  Forall (level_ok K) (population m').
Proof.
  intros Hall Ht. apply Forall_lookup. intros i c' Hc'.
  assert (Hi : (i < length (population m))%nat).
  { rewrite <- (Model_tick_length K m m' Ht). by eapply lookup_lt_Some. }
  destruct (lookup_lt_is_Some_2 _ _ Hi) as [c Hc].
  destruct (Model_tick_lookup K m m' i c Ht Hc) as (c2 & Hc2 & Htouch).
  assert (c2 = c') as -> by congruence.
  eapply level_ok_touched; [exact Htouch|].
  apply level_ok_enforce_bounds, level_ok_Cell_tick.
  eapply Forall_lookup_1; eauto.
Qed.

Lemma level_ok_Model_ticks (k : nat) : forall m m',
  Forall (level_ok K) (population m) -> Model_ticks K k m = Ok m' ->
  Forall (level_ok K) (population m').
Proof.
  induction k as [|k IH]; intros m m' Hall Hrun.
  - by injection Hrun as <-.
  - apply Model_ticks_S in Hrun as (m1 & H1 & H2).
    eapply IH; [|exact H2]. by eapply level_ok_Model_tick.
Qed.

Lemma level_ok_Model_init draws cells speed num_infected num_immune s m :
  Model_init K draws cells speed num_infected num_immune s = Ok m ->
  Forall (level_ok K) (population m).
Proof.
  intros Hinit.
  destruct (decide (refused cells num_infected num_immune)) as [H | H].
  - apply (Model_init_refuses K draws cells speed num_infected num_immune s) in H. congruence.
  - rewrite Model_init_accepts in Hinit by done. injection Hinit as <-. simpl.
    apply built_level_ok.
Qed.

End Invariant.

(** C8. In every state that calls of [tick()] reach from a model built
    by [__init__], every level is the Vulnerable sentinel, the Immune
    sentinel, or at least the infected threshold; and the run of ticks
    never raises.  Each operation keeps it so: [Cell.tick],
    [contract_disease], [immunize], [contact_with] on both cells, and
    [Model.tick] on the whole population. *)
Theorem sickness_level_invariant (K : Constants) :
  (forall draws cells speed num_infected num_immune s m0,
      Model_init K draws cells speed num_infected num_immune s = Ok m0 ->
      forall k : nat, exists m,
        Model_ticks K k m0 = Ok m /\ Forall (level_ok K) (population m))
  /\ (forall c, level_ok K c -> level_ok K (Cell_tick K c))
  /\ (forall c, level_ok K (contract_disease K c))
  /\ (forall c, level_ok K (immunize K c))
  /\ (forall a b, level_ok K a -> level_ok K b ->
        level_ok K (fst (contact_with K a b)) /\ level_ok K (snd (contact_with K a b)))
  /\ (forall m m', Forall (level_ok K) (population m) -> Model_tick K m = Ok m' ->
        Forall (level_ok K) (population m')).
Proof.
  split; [|split; [|split; [|split; [|split]]]].
  - intros draws cells speed num_infected num_immune s m0 Hinit k.
    destruct (Model_ticks_total K k m0) as [m Hrun]. exists m. split; [done|].
    eapply level_ok_Model_ticks; [|exact Hrun]. by eapply level_ok_Model_init.
  - apply level_ok_Cell_tick.
  - apply level_ok_contract_disease.
  - apply level_ok_immunize.
  - apply level_ok_contact_with.
  - apply level_ok_Model_tick.
Qed.

Lemma sickness_level_invariant_witness :
  exists m0 m,
    Model_init sample_constants sample_draws 5 1 2 1 0 = Ok m0
    /\ Model_ticks sample_constants 4 m0 = Ok m
    /\ Forall (level_ok sample_constants) (population m).
Proof.
  destruct (sickness_level_invariant sample_constants) as [H _].
  eexists.
  destruct (H sample_draws 5 1%R 2 1 0%nat _
              (Model_init_accepts sample_constants sample_draws 5 1%R 2 1 0%nat
                 ltac:(unfold refused; lia)) 4%nat) as (m & Hrun & Hall).
  exists m. split; [|split; [exact Hrun | exact Hall]].
  apply Model_init_accepts. unfold refused; lia.
Defined.

(** C9, as amended.  With draws in [[0, 1)] and bounds that cover the region
    [random_location] draws from, every cell of a model built by
    [__init__] has its location within the bounds, and its direction is
    [(speed * cos a, speed * sin a)] for the angle [a] obtained from one
    draw as [2 * PI * draw], which lies in [[0, 2 * PI)]. *)
Theorem random_initialization (K : Constants) (draws : nat -> R)
    (cells : Z) (speed : R) (num_infected num_immune : Z) (s : nat) (m : Model) :
  (forall n, (0 <= draws n < 1)%R) ->
  bounds_cover_draws K ->
  Model_init K draws cells speed num_infected num_immune s = Ok m ->
  Forall (fun c =>
            ((K.(MIN_X) <= x (location c) <= K.(MAX_X))%R
             /\ (K.(MIN_Y) <= y (location c) <= K.(MAX_Y))%R)
            /\ exists n a,
                a = (2 * PI * draws n)%R /\ (0 <= a < 2 * PI)%R
                /\ direction c = mkPoint (speed * cos a) (speed * sin a))
    (population m).
Proof.
  intros Hdraws (HW & Hx1 & Hx2 & Hy1 & Hy2) Hinit.
  destruct (decide (refused cells num_infected num_immune)) as [H | H].
  { apply (Model_init_refuses K draws cells speed num_infected num_immune s) in H. congruence. }
  rewrite Model_init_accepts in Hinit by done. injection Hinit as <-. simpl.
  assert (Hfresh : forall t (force : Cell -> Cell),
            (forall c, location (force c) = location c /\ direction (force c) = direction c) ->
            let c := force (fresh_cell K draws speed t) in
            ((K.(MIN_X) <= x (location c) <= K.(MAX_X))%R
             /\ (K.(MIN_Y) <= y (location c) <= K.(MAX_Y))%R)
            /\ exists n a,
                a = (2 * PI * draws n)%R /\ (0 <= a < 2 * PI)%R
                /\ direction c = mkPoint (speed * cos a) (speed * sin a)).
  { intros t force Hforce c. subst c.
    destruct (Hforce (fresh_cell K draws speed t)) as [-> ->]. simpl.
    pose proof (Hdraws t) as H0. pose proof (Hdraws (S t)) as H1.
    pose proof (Hdraws (S (S t))) as H2. pose proof PI_RGT_0 as Hpi.
    split; [split; nra|].
    exists (S (S t)), (2 * PI * draws (S (S t)))%R.
    split; [done|]. split; [nra|]. f_equal; apply Rmult_comm. }
  unfold built. rewrite !Forall_app, !Forall_map, !Forall_forall.
  split; [|split]; intros k _.
  - apply (Hfresh _ (immunize K)). intros c; auto.
  - apply (Hfresh _ (contract_disease K)). intros c; auto.
  - apply (Hfresh _ (fun c => c)). intros c; auto.
Qed.

Lemma random_initialization_witness :
  exists m,
    Model_init sample_constants sample_draws 5 1 2 1 0 = Ok m
    /\ Forall (fun c => inside sample_constants (location c)) (population m).
Proof.
  eexists. split; [apply Model_init_accepts; unfold refused; lia|].
  eapply Forall_impl.
  - apply (random_initialization sample_constants sample_draws 5 1%R 2 1 0%nat).
    + intros n. unfold sample_draws. lra.
    + exact sample_bounds_cover_draws.
    + apply Model_init_accepts. unfold refused; lia.
  - intros c [Hin _]. exact Hin.
Defined.

(** C9, as first stated, fails.  [random_location] scales both
    coordinates by [BOUNDS_WIDTH].  In a region with ordered bounds that is
    400 wide and 200 high ([MAX_Y] = 100), with every draw 9/10, the first
    cell that [__init__] builds is at y = 9/10 * 400 - 100 = 260, above
    [MAX_Y]. *)
Lemma random_initialization_counterexample :
  bounds_ordered wide_constants
  /\ (forall n, (0 <= high_draws n < 1)%R)
  /\ exists m c,
      Model_init wide_constants high_draws 2 1 1 0 0 = Ok m
      /\ population m !! 0%nat = Some c
      /\ y (location c) = 260%R
      /\ (wide_constants.(MAX_Y) < y (location c))%R.
Proof.
  split; [unfold bounds_ordered; simpl; lra|].
  split; [intros n; unfold high_draws; lra|].
  exists (mkModel (built wide_constants high_draws 2 1 1 0 0) 0),
         (contract_disease wide_constants (fresh_cell wide_constants high_draws 1 0)).
  split; [apply Model_init_accepts; unfold refused; lia|].
  split; [reflexivity|].
  assert (E : y (location (contract_disease wide_constants
                             (fresh_cell wide_constants high_draws 1 0))) = 260%R).
  { simpl. unfold high_draws. lra. }
  split; [exact E|]. rewrite E. simpl. lra.
Qed.

(** ** A cascade within one scan *)


Section Cascade.

Variable K : Constants.
Hypothesis Hsent : sentinels_separate K.
Hypothesis Hrec : K.(INFECTED) < K.(RECOVERY_PERIOD).
Hypothesis Hrad : (0 < K.(CELL_RADIUS))%R.
Hypothesis Hbounds : bounds_ordered K.

Lemma Point_distance_self (p : Point) : Point_distance p p = 0%R.
Proof.
  unfold Point_distance.
  replace ((x p - x p) ^ 2 + (y p - y p) ^ 2)%R with 0%R by ring. apply sqrt_0.
Qed.
















#[local] Arguments visit : simpl never.



End Cascade.



(** * Further properties of the code *)

(** ** An invariant rule for the scan *)

Section ScanInvariant.

Variable K : Constants.
Variable pop0 : list Cell.

(** A property of the population and the log that every looked-at pair
    keeps.  The step may assume that the population has so far only been
    [touched]. *)
Variable Inv : list Cell -> list event -> Prop.

Hypothesis Inv_step : forall i j cur log cur' called,
  (i < j < length pop0)%nat ->
  Forall2 (touched K) pop0 cur ->
  Inv cur log ->
  visit K i j cur = Ok (cur', called) ->
  Inv cur' (log ++ [mkEvent i j called]).

Lemma inner_loop_invariant (rounds : nat) : forall i j st st',
  (i < j)%nat -> (j + rounds <= length pop0)%nat ->
  Forall2 (touched K) pop0 (fst st) -> Inv (fst st) (snd st) ->
  inner_loop K rounds i j st = Ok st' ->
  Forall2 (touched K) pop0 (fst st') /\ Inv (fst st') (snd st').
Proof.
  induction rounds as [|rounds IH]; intros i j [pop log] st' Hij Hlen HF HI Hrun; simpl in *.
  - by injection Hrun as <-.
  - destruct (visit_spec K pop0 pop i j HF) as (pop1 & called & Hv & HF1 & _); [lia..|].
    rewrite Hv in Hrun. simpl in Hrun.
    apply (IH i (S j) (pop1, log ++ [mkEvent i j called]) st');
      [lia | lia | exact HF1 | | exact Hrun]. simpl.
    apply (Inv_step i j pop log pop1 called); [lia | done | done | done].
Qed.

Lemma outer_loop_invariant (rounds : nat) : forall i st st',
  (i + rounds <= length pop0)%nat ->
  Forall2 (touched K) pop0 (fst st) -> Inv (fst st) (snd st) ->
  outer_loop K rounds (length pop0) i st = Ok st' ->
  Forall2 (touched K) pop0 (fst st') /\ Inv (fst st') (snd st').
Proof.
  induction rounds as [|rounds IH]; intros i [pop log] st' Hlen HF HI Hrun; simpl in *.
  - by injection Hrun as <-.
  - destruct (index pop i) as [c|e]; [|done]. simpl in Hrun.
    destruct (inner_loop K (length pop0 - (i + 1)) i (i + 1) (pop, log)) as [st1|e] eqn:Hin;
      [|done].
    simpl in Hrun.
    destruct (inner_loop_invariant (length pop0 - (i + 1)) i (i + 1)%nat (pop, log) st1)
      as [HF1 HI1];
      [lia | lia | done | done | done |].
    apply (IH (S i) st1 st'); [lia | exact HF1 | exact HI1 | exact Hrun].
Qed.

Lemma check_contacts_log_invariant (pop' : list Cell) (log : list event) :
  Inv pop0 [] ->
  check_contacts_log K pop0 = Ok (pop', log) ->
  Inv pop' log.
Proof.
  intros H0 Hrun. unfold check_contacts_log in Hrun. rewrite Nat.sub_0_r in Hrun.
  destruct (outer_loop_invariant (length pop0) 0%nat (pop0, []) (pop', log)) as [_ HI];
    [simpl; lia | | done | done | done].
  simpl. apply Forall2_same_length_lookup. split; [done|].
  intros; simplify_eq; apply touched_refl.
Qed.

End ScanInvariant.

(** The same rule for a property of the population alone. *)
Lemma check_contacts_invariant (K : Constants) (pop0 : list Cell)
    (Inv : list Cell -> Prop) (pop' : list Cell) :
  (forall i j cur cur' called,
      (i < j < length pop0)%nat -> Forall2 (touched K) pop0 cur -> Inv cur ->
      visit K i j cur = Ok (cur', called) -> Inv cur') ->
  Inv pop0 ->
  check_contacts K pop0 = Ok pop' ->
  Inv pop'.
Proof.
  intros Hstep H0 Hrun. unfold check_contacts in Hrun.
  destruct (check_contacts_log K pop0) as [[pop1 log]|e] eqn:Hlog; [|done].
  simpl in Hrun. injection Hrun as <-.
  apply (check_contacts_log_invariant K pop0 (fun cur _ => Inv cur)) with (log := log); auto.
  intros. eapply Hstep; eauto.
Qed.

(** What one looked-at pair does, spelled out. *)
Lemma visit_inv (K : Constants) (i j : nat) (cur cur' : list Cell) (called : bool) :
  visit K i j cur = Ok (cur', called) ->
  exists c1 c2,
    cur !! i = Some c1 /\ cur !! j = Some c2
    /\ (called = true <->
        (Point_distance (location c1) (location c2) < K.(CELL_RADIUS))%R)
    /\ cur' = if called
              then <[j := snd (contact_with K c1 c2)]>
                     (<[i := fst (contact_with K c1 c2)]> cur)
              else cur.
Proof.
  unfold visit, index. intros H.
  destruct (cur !! i) as [c1|]; [|done]. destruct (cur !! j) as [c2|]; [|done].
  simpl in H. exists c1, c2. split; [done|]. split; [done|].
  destruct (Rlt_dec _ _) as [Hd|Hd].
  - destruct (contact_with K c1 c2) as [a b]. injection H as <- <-. simpl. tauto.
  - injection H as <- <-. split; [|done]. split; [done|tauto].
Qed.

(** ** The distance *)

Lemma Point_distance_sym (p q : Point) : Point_distance p q = Point_distance q p.
Proof. unfold Point_distance. f_equal. ring. Qed.

Lemma Point_distance_nonneg (p q : Point) : (0 <= Point_distance p q)%R.
Proof. apply sqrt_pos. Qed.




(** X1. [Point.distance] is never negative, gives the same value in
    both directions, and is zero from a point to itself. *)
Theorem Point_distance_symmetric (p q : Point) :
  (0 <= Point_distance p q)%R
  /\ Point_distance p q = Point_distance q p
  /\ Point_distance p p = 0%R.
Proof.
  split; [apply Point_distance_nonneg|]. split; [apply Point_distance_sym|].
  apply Point_distance_self.
Qed.

(** ** What the scan does to a population *)

Section ScanFacts.

Variable K : Constants.
Implicit Types (c : Cell) (pop cur : list Cell).

Lemma touched_outcome c c' :
  touched K c c' ->
  c' = c \/ (is_vulnerable K c = true /\ c' = contract_disease K c).
Proof.
  intros (Hl & Hd & Hs). destruct c as [l d s], c' as [l' d' s']. simpl in *. subst.
  destruct Hs as [-> | [-> ->]]; [by left|].
  right. split; [by apply is_vulnerable_true | reflexivity].
Qed.

Lemma touched_infected c c' :
  touched K c c' -> is_infected K c = true -> is_infected K c' = true.
Proof.
  intros (_ & _ & Hs) H. apply is_infected_true in H. apply is_infected_true.
  destruct Hs as [-> | [_ ->]]; lia.
Qed.


Lemma contact_with_idle c1 c2 :
  is_infected K c1 = false -> is_infected K c2 = false ->
  contact_with K c1 c2 = (c1, c2).
Proof. intros H1 H2. by rewrite contact_with_cases, H1, H2. Qed.


Lemma check_contacts_none_infected pop :
  Forall (fun c => is_infected K c = false) pop ->
  check_contacts K pop = Ok pop.
Proof.
  intros Hnone. destruct (check_contacts_spec K pop) as (pop' & Hrun & _).
  rewrite Hrun. f_equal.
  apply (check_contacts_invariant K pop (fun cur => cur = pop) pop'); [|done|done].
  intros i j cur cur' called Hij _ -> Hv.
  destruct (visit_inv K i j pop cur' called Hv) as (c1 & c2 & H1 & H2 & _ & ->).
  destruct called; [|done].
  pose proof (Forall_lookup_1 _ _ _ _ Hnone H1) as N1.
  pose proof (Forall_lookup_1 _ _ _ _ Hnone H2) as N2. simpl in N1, N2.
  rewrite (contact_with_idle c1 c2 N1 N2). simpl.
  by rewrite (list_insert_id _ _ _ H1), (list_insert_id _ _ _ H2).
Qed.


End ScanFacts.

(** ** Who infects whom *)

Section Propagation.

Variable K : Constants.
Hypothesis HV : K.(VULNERABLE) < K.(INFECTED).
Implicit Types (c : Cell) (pop cur : list Cell).




End Propagation.

Section Origin.

Variable K : Constants.
Implicit Types (c : Cell) (pop cur : list Cell).



End Origin.




(** X3. The scan never raises and keeps the number of cells.  Each cell
    comes out either as it went in, or, if it was vulnerable, as
    [contract_disease] makes it; a cell that was infected is still
    infected. *)
Theorem scan_outcome (K : Constants) (pop : list Cell) :
  exists pop',
    check_contacts K pop = Ok pop'
    /\ length pop' = length pop
    /\ forall i c, pop !! i = Some c ->
         exists c', pop' !! i = Some c'
           /\ (c' = c \/ (is_vulnerable K c = true /\ c' = contract_disease K c))
           /\ (is_infected K c = true -> is_infected K c' = true).
Proof.
  destruct (check_contacts_spec K pop) as (pop' & Hrun & HF).
  exists pop'. split; [done|]. split; [symmetry; by eapply Forall2_length|].
  intros i c Hc. destruct (Forall2_lookup_l _ _ _ _ _ HF Hc) as (c' & Hc' & Ht).
  exists c'. split; [done|]. split; [by apply touched_outcome|by apply touched_infected].
Qed.




(** X5. When no cell is infected, the scan returns the population
    unchanged. *)
Theorem scan_none_infected (K : Constants) (pop : list Cell) :
  Forall (fun c => is_infected K c = false) pop ->
  check_contacts K pop = Ok pop.
Proof. apply check_contacts_none_infected. Qed.

Lemma scan_none_infected_witness :
  check_contacts sample_constants [sample_vulnerable; sample_vulnerable]
  = Ok [sample_vulnerable; sample_vulnerable].
Proof.
  apply (scan_none_infected sample_constants [sample_vulnerable; sample_vulnerable]).
  repeat constructor.
Defined.








(** ** Where the cells are and how fast they move *)

Section Motion.

Variable K : Constants.
Implicit Types (c : Cell) (m : Model).

Lemma enforce_bounds_lands_inside c :
  bounds_ordered K -> inside K (location (enforce_bounds K c)).
Proof.
  intros HK. pose proof HK as [Hx Hy].
  pose proof (enforce_bounds_x K HK c) as (X1 & X2 & X3).
  pose proof (enforce_bounds_y K HK c) as (Y1 & Y2 & Y3).
  split.
  - destruct (Rlt_le_dec K.(MAX_X) (x (location c))) as [H|H];
      [destruct X1 as [-> _]; [lra|lra]|].
    destruct (Rlt_le_dec (x (location c)) K.(MIN_X)) as [H'|H'];
      [destruct X2 as [-> _]; [lra|lra]|].
    destruct X3 as [-> _]; lra.
  - destruct (Rlt_le_dec K.(MAX_Y) (y (location c))) as [H|H];
      [destruct Y1 as [-> _]; [lra|lra]|].
    destruct (Rlt_le_dec (y (location c)) K.(MIN_Y)) as [H'|H'];
      [destruct Y2 as [-> _]; [lra|lra]|].
    destruct Y3 as [-> _]; lra.
Qed.

(** Reflection changes a velocity component in sign at most. *)
Lemma enforce_bounds_speed c :
  Rabs (x (direction (enforce_bounds K c))) = Rabs (x (direction c))
  /\ Rabs (y (direction (enforce_bounds K c))) = Rabs (y (direction c)).
Proof.
  assert (Hneg : forall r : R, Rabs (r * -1) = Rabs r).
  { intros r. replace (r * -1)%R with (- r)%R by ring. apply Rabs_Ropp. }
  assert (Hneg2 : forall r : R, Rabs (r * -1 * -1) = Rabs r).
  { intros r. by rewrite !Hneg. }
  unfold enforce_bounds.
  repeat match goal with
         | |- context [Rgt_dec ?a ?b] => destruct (Rgt_dec a b)
         | |- context [Rlt_dec ?a ?b] => destruct (Rlt_dec a b)
         end;
  cbn [location direction sickness x y]; rewrite ?Hneg2, ?Hneg; done.
Qed.

Lemma moved_speed c :
  Rabs (x (direction (moved K c))) = Rabs (x (direction c))
  /\ Rabs (y (direction (moved K c))) = Rabs (y (direction c)).
Proof.
  unfold moved. destruct (enforce_bounds_speed (Cell_tick K c)) as [-> ->].
  by rewrite Cell_tick_direction.
Qed.

Lemma Model_tick_inside m m' :
  bounds_ordered K -> Model_tick K m = Ok m' ->
  Forall (fun c => inside K (location c)) (population m').
Proof.
  intros HK Ht. apply Forall_lookup. intros i c' Hc'.
  assert (Hi : (i < length (population m))%nat).
  { rewrite <- (Model_tick_length K m m' Ht). by eapply lookup_lt_Some. }
  destruct (lookup_lt_is_Some_2 _ _ Hi) as [c Hc].
  destruct (Model_tick_lookup K m m' i c Ht Hc) as (c2 & Hc2 & (Hl & _)).
  assert (c2 = c') as -> by congruence. rewrite Hl.
  by apply enforce_bounds_lands_inside.
Qed.

Lemma Model_ticks_inside k : forall m m',
  bounds_ordered K -> Model_ticks K (S k) m = Ok m' ->
  Forall (fun c => inside K (location c)) (population m').
Proof.
  induction k as [|k IH]; intros m m' HK Hrun;
    apply Model_ticks_S in Hrun as (m1 & H1 & H2).
  - injection H2 as <-. by eapply Model_tick_inside.
  - by apply (IH m1 m').
Qed.

Lemma Model_ticks_length k : forall m m',
  Model_ticks K k m = Ok m' -> length (population m') = length (population m).
Proof.
  induction k as [|k IH]; intros m m' Hrun.
  - by injection Hrun as <-.
  - apply Model_ticks_S in Hrun as (m1 & H1 & H2).
    rewrite (IH _ _ H2). by apply (Model_tick_length K).
Qed.

Lemma Model_ticks_speed k : forall m m' i c,
  Model_ticks K k m = Ok m' -> population m !! i = Some c ->
  exists c', population m' !! i = Some c'
    /\ Rabs (x (direction c')) = Rabs (x (direction c))
    /\ Rabs (y (direction c')) = Rabs (y (direction c)).
Proof.
  induction k as [|k IH]; intros m m' i c Hrun Hc.
  - injection Hrun as <-. eauto.
  - apply Model_ticks_S in Hrun as (m1 & H1 & H2).
    destruct (Model_tick_lookup K m m1 i c H1 Hc) as (c1 & Hc1 & (_ & Hd & _)).
    destruct (IH m1 m' i c1 H2 Hc1) as (c' & Hc' & Ex & Ey).
    exists c'. split; [done|]. rewrite Ex, Ey, Hd. apply moved_speed.
Qed.

End Motion.

(** X9. With ordered bounds, [enforce_bounds] puts every cell within the
    four bounds, leaves a cell that is within them as it is, and so does
    nothing when applied a second time. *)
Theorem enforce_bounds_inside_bounds (K : Constants) (c : Cell) :
  bounds_ordered K ->
  inside K (location (enforce_bounds K c))
  /\ (inside K (location c) -> enforce_bounds K c = c)
  /\ enforce_bounds K (enforce_bounds K c) = enforce_bounds K c.
Proof.
  intros HK. split; [by apply enforce_bounds_lands_inside|].
  split; [apply (enforce_bounds_inside K)|].
  by apply (enforce_bounds_inside K), enforce_bounds_lands_inside.
Qed.

Lemma enforce_bounds_inside_bounds_witness :
  inside sample_constants
    (location (enforce_bounds sample_constants (mkCell (mkPoint 201 (-300)) (mkPoint 1 2) 0))).
Proof.
  apply (enforce_bounds_inside_bounds sample_constants
           (mkCell (mkPoint 201 (-300)) (mkPoint 1 2) 0) sample_bounds_ordered).
Defined.

(** X10. With ordered bounds, after one or more calls of [tick()], from
    any model, every cell is within the four bounds. *)
Theorem ticks_keep_inside (K : Constants) (k : nat) (m m' : Model) :
  bounds_ordered K ->
  Model_ticks K (S k) m = Ok m' ->
  Forall (fun c => inside K (location c)) (population m').
Proof. apply Model_ticks_inside. Qed.

Lemma ticks_keep_inside_witness :
  exists m', Model_ticks sample_constants 3 sample_model = Ok m'
    /\ Forall (fun c => inside sample_constants (location c)) (population m').
Proof.
  destruct (Model_ticks_total sample_constants 3 sample_model) as [m' Hrun].
  exists m'. split; [exact Hrun|].
  exact (ticks_keep_inside sample_constants 2 sample_model m' sample_bounds_ordered Hrun).
Defined.

(** X11. Calls of [tick()] never raise, keep the number of cells, and add
    one to the clock each.  They change the two components of a cell's
    direction in sign at most, so every cell keeps its speed. *)
Theorem ticks_keep_speed (K : Constants) (k : nat) (m : Model) :
  exists m',
    Model_ticks K k m = Ok m'
    /\ time m' = time m + Z.of_nat k
    /\ length (population m') = length (population m)
    /\ forall i c, population m !! i = Some c ->
         exists c', population m' !! i = Some c'
           /\ Rabs (x (direction c')) = Rabs (x (direction c))
           /\ Rabs (y (direction c')) = Rabs (y (direction c))
           /\ (x (direction c') ^ 2 + y (direction c') ^ 2
               = x (direction c) ^ 2 + y (direction c) ^ 2)%R.
Proof.
  destruct (Model_ticks_total K k m) as [m' Hrun]. exists m'.
  split; [done|]. split; [by apply (Model_ticks_time K k)|].
  split; [by apply (Model_ticks_length K k)|].
  intros i c Hc. destruct (Model_ticks_speed K k m m' i c Hrun Hc) as (c' & Hc' & Ex & Ey).
  exists c'. split; [done|]. split; [done|]. split; [done|].
  rewrite <- !Rsqr_pow2, (Rsqr_abs (x (direction c'))), (Rsqr_abs (y (direction c'))),
    Ex, Ey, <- !Rsqr_abs. done.
Qed.

(** ** Completion *)

Section Completion.

Variable K : Constants.
Implicit Types (c : Cell) (m : Model) (pop : list Cell).

Lemma none_infected_Forall pop :
  none_infected K pop = true <-> Forall (fun c => is_infected K c = false) pop.
Proof.
  induction pop as [|c pop IH]; simpl.
  - split; [constructor|done].
  - destruct (is_infected K c) eqn:E.
    + split; [done|]. intros H. apply Forall_cons in H as [H _]. congruence.
    + rewrite IH. split; [by constructor|]. by intros [_ H]%Forall_cons.
Qed.

Lemma none_infected_false pop :
  none_infected K pop = false <-> Exists (fun c => is_infected K c = true) pop.
Proof.
  induction pop as [|c pop IH]; simpl.
  - split; [done|]. intros H. by apply Exists_nil in H.
  - destruct (is_infected K c) eqn:E.
    + split; [by left|done].
    + rewrite IH. split; [by right|]. intros [H|H]%Exists_cons; [congruence|done].
Qed.

Lemma moved_not_infected c :
  K.(IMMUNE) < K.(INFECTED) ->
  is_infected K c = false -> is_infected K (moved K c) = false.
Proof.
  intros Hi H. apply is_infected_false in H. apply is_infected_false.
  rewrite moved_sickness. unfold aged.
  destruct (Z.geb_spec (sickness c) K.(INFECTED)); [lia|].
  destruct (_ >? _); lia.
Qed.

Lemma Model_tick_complete m :
  K.(IMMUNE) < K.(INFECTED) -> is_complete K m = true ->
  Model_tick K m = Ok (mkModel (tick_cells K (population m)) (time m + 1))
  /\ is_complete K (mkModel (tick_cells K (population m)) (time m + 1)) = true.
Proof.
  intros Hi Hc. unfold is_complete in *. apply none_infected_Forall in Hc.
  assert (Hnone : Forall (fun c => is_infected K c = false) (tick_cells K (population m))).
  { rewrite tick_cells_map, Forall_map. eapply Forall_impl; [exact Hc|].
    intros c. by apply moved_not_infected. }
  split.
  - unfold Model_tick. by rewrite (check_contacts_none_infected K _ Hnone).
  - simpl. by apply none_infected_Forall.
Qed.

Lemma Model_ticks_complete k : forall m,
  K.(IMMUNE) < K.(INFECTED) -> is_complete K m = true ->
  exists m', Model_ticks K k m = Ok m' /\ is_complete K m' = true.
Proof.
  induction k as [|k IH]; intros m Hi Hc.
  - exists m. done.
  - destruct (Model_tick_complete m Hi Hc) as [Ht Hc'].
    destruct (IH _ Hi Hc') as (m' & Hrun & Hdone).
    exists m'. split; [|done]. simpl. by rewrite Ht.
Qed.

Lemma Model_ticks_add k1 k2 : forall m m1,
  Model_ticks K k1 m = Ok m1 -> Model_ticks K (k1 + k2) m = Model_ticks K k2 m1.
Proof.
  induction k1 as [|k1 IH]; intros m m1 H.
  - by injection H as <-.
  - apply Model_ticks_S in H as (m0 & H0 & H1). simpl. rewrite H0. simpl. by apply IH.
Qed.

(** What one tick does to the bound of one level. *)
Lemma ticks_left_step (s s' : Z) :
  sentinels_separate K ->
  s' = aged K s \/ (aged K s = K.(VULNERABLE) /\ s' = K.(INFECTED)) ->
  (ticks_left K s' <= ticks_left K s)%nat
  /\ (K.(INFECTED) <= s -> (ticks_left K s' < ticks_left K s)%nat).
Proof.
  intros (Hv & Hi & Hne) Hs. unfold ticks_left, aged in *.
  destruct (Z.geb_spec s K.(INFECTED));
    destruct (Z.eqb_spec s K.(VULNERABLE));
    repeat match goal with
           | H : context [?a >? ?b] |- _ => destruct (Z.gtb_spec a b)
           end;
    destruct (Z.geb_spec s' K.(INFECTED));
    destruct (Z.eqb_spec s' K.(VULNERABLE)); lia.
Qed.

Lemma work_step pop pop' :
  Forall2 (fun c c' =>
             (ticks_left K (sickness c') <= ticks_left K (sickness c))%nat
             /\ (is_infected K c = true ->
                 (ticks_left K (sickness c') < ticks_left K (sickness c))%nat)) pop pop' ->
  (work K pop' <= work K pop)%nat
  /\ (Exists (fun c => is_infected K c = true) pop -> (work K pop' < work K pop)%nat).
Proof.
  unfold work. induction 1 as [|c c' pop pop' [Hle Hlt] _ [IH1 IH2]]; simpl.
  - split; [done|]. intros H. by apply Exists_nil in H.
  - split; [lia|]. intros [H|H]%Exists_cons.
    + specialize (Hlt H). lia.
    + specialize (IH2 H). lia.
Qed.

Lemma Model_tick_work m m' :
  sentinels_separate K -> Model_tick K m = Ok m' ->
  (work K (population m') <= work K (population m))%nat
  /\ (is_complete K m = false ->
      (work K (population m') < work K (population m))%nat).
Proof.
  intros HK Ht. destruct (Model_tick_spec K m) as (m1 & Ht1 & _ & HF).
  rewrite Ht in Ht1. injection Ht1 as <-.
  rewrite tick_cells_map in HF. apply (proj1 (Forall2_fmap_l (moved K) (touched K) _ _)) in HF.
  destruct (work_step (population m) (population m')) as [H1 H2].
  { eapply Forall2_impl; [exact HF|]. intros c c' (_ & _ & Hs). simpl in Hs.
    rewrite moved_sickness in Hs.
    destruct (ticks_left_step (sickness c) (sickness c') HK Hs) as [Hle Hlt].
    split; [done|]. intros Hi. apply Hlt. by apply is_infected_true. }
  split; [done|]. intros Hc. apply H2. by apply none_infected_false.
Qed.

Lemma ticks_left_bound (s : Z) :
  (ticks_left K s <= S (Z.to_nat (Z.max 1 (K.(RECOVERY_PERIOD) - K.(INFECTED) + 1))))%nat.
Proof.
  unfold ticks_left. destruct (Z.geb_spec s K.(INFECTED)); [lia|].
  destruct (_ =? _); lia.
Qed.

Lemma work_bound pop :
  (work K pop
   <= length pop * S (Z.to_nat (Z.max 1 (K.(RECOVERY_PERIOD) - K.(INFECTED) + 1))))%nat.
Proof.
  unfold work. induction pop as [|c pop IH]; simpl; [done|].
  pose proof (ticks_left_bound (sickness c)). lia.
Qed.

Lemma Model_ticks_finish (n : nat) : forall m,
  sentinels_separate K -> (work K (population m) <= n)%nat ->
  exists k m', (k <= n)%nat /\ Model_ticks K k m = Ok m' /\ is_complete K m' = true.
Proof.
  induction n as [|n IH]; intros m HK Hw.
  - destruct (is_complete K m) eqn:Hc; [exists 0%nat, m; done|].
    destruct (Model_tick_spec K m) as (m1 & Ht & _).
    destruct (Model_tick_work m m1 HK Ht) as [_ Hlt]. specialize (Hlt Hc). lia.
  - destruct (is_complete K m) eqn:Hc; [exists 0%nat, m; split; [lia|done]|].
    destruct (Model_tick_spec K m) as (m1 & Ht & _).
    destruct (Model_tick_work m m1 HK Ht) as [_ Hlt]. specialize (Hlt Hc).
    destruct (IH m1 HK) as (k & m' & Hk & Hrun & Hdone); [lia|].
    exists (S k), m'. split; [lia|]. split; [|done]. simpl. by rewrite Ht.
Qed.

End Completion.

(** X13. [is_complete] answers [True] exactly when no cell of the
    population is infected, and [False] exactly when some cell is. *)
Theorem is_complete_spec (K : Constants) (m : Model) :
  (is_complete K m = true <-> Forall (fun c => is_infected K c = false) (population m))
  /\ (is_complete K m = false <-> Exists (fun c => is_infected K c = true) (population m)).
Proof. split; [apply none_infected_Forall | apply none_infected_false]. Qed.

(** X14. A model that [__init__] has just built is not complete, whatever
    the constants: it holds [num_infected >= 1] cells at the infected
    threshold. *)
Theorem constructed_not_complete (K : Constants) (draws : nat -> R)
    (cells : Z) (speed : R) (num_infected num_immune : Z) (s : nat) (m : Model) :
  Model_init K draws cells speed num_infected num_immune s = Ok m ->
  is_complete K m = false.
Proof.
  intros Hinit.
  destruct (decide (refused cells num_infected num_immune)) as [H | H].
  { apply (Model_init_refuses K draws cells speed num_infected num_immune s) in H. congruence. }
  rewrite Model_init_accepts in Hinit by done. injection Hinit as <-.
  apply none_infected_false. simpl. unfold built.
  apply Exists_app. right. apply Exists_app. left.
  unfold refused in H. destruct (Z.to_nat num_infected) as [|n] eqn:E; [lia|].
  simpl. left. apply is_infected_true. simpl. lia.
Qed.

Lemma constructed_not_complete_witness :
  is_complete sample_constants
    (mkModel (built sample_constants sample_draws 5 1 2 1 0) 0) = false.
Proof.
  apply (constructed_not_complete sample_constants sample_draws 5 1%R 2 1 0%nat).
  apply Model_init_accepts. unfold refused; lia.
Defined.

(** X15. With the Immune sentinel below the infected threshold, a complete
    model stays complete: one [tick()] only advances and reflects the
    cells, the scan changing nothing, and after any number of ticks the
    model is still complete. *)
Theorem complete_stays_complete (K : Constants) (m : Model) :
  K.(IMMUNE) < K.(INFECTED) ->
  is_complete K m = true ->
  Model_tick K m = Ok (mkModel (tick_cells K (population m)) (time m + 1))
  /\ forall k : nat, exists m', Model_ticks K k m = Ok m' /\ is_complete K m' = true.
Proof.
  intros Hi Hc. split; [by apply Model_tick_complete|].
  intros k. by apply Model_ticks_complete.
Qed.

Lemma complete_stays_complete_witness :
  exists m',
    Model_ticks sample_constants 7 (mkModel [sample_vulnerable; sample_distant] 0) = Ok m'
    /\ is_complete sample_constants m' = true.
Proof.
  destruct (complete_stays_complete sample_constants
              (mkModel [sample_vulnerable; sample_distant] 0)) as [_ H];
    [simpl; lia | reflexivity |].
  exact (H 7%nat).
Defined.

(** X16. With separate sentinels every epidemic ends: from any model,
    after at most [n * (1 + max 1 (RECOVERY_PERIOD - INFECTED + 1))] ticks,
    [n] the number of cells, the model is complete, and it is complete
    after every further tick. *)
Theorem epidemic_ends (K : Constants) (m : Model) :
  sentinels_separate K ->
  exists k m',
    (k <= length (population m)
          * S (Z.to_nat (Z.max 1 (K.(RECOVERY_PERIOD) - K.(INFECTED) + 1))))%nat
    /\ Model_ticks K k m = Ok m'
    /\ is_complete K m' = true
    /\ forall j : nat, exists m'',
         Model_ticks K (k + j) m = Ok m'' /\ is_complete K m'' = true.
Proof.
  intros HK.
  destruct (Model_ticks_finish K _ m HK (work_bound K (population m)))
    as (k & m' & Hk & Hrun & Hdone).
  exists k, m'. split; [done|]. split; [done|]. split; [done|].
  intros j. rewrite (Model_ticks_add K k j m m' Hrun).
  apply Model_ticks_complete; [|done]. by destruct HK as (_ & ? & _).
Qed.

Lemma epidemic_ends_witness :
  exists k m',
    (k <= 2 * 4)%nat
    /\ Model_ticks sample_constants k sample_model = Ok m'
    /\ is_complete sample_constants m' = true.
Proof.
  destruct (epidemic_ends sample_constants sample_model sample_sentinels_separate)
    as (k & m' & Hk & Hrun & Hdone & _).
  exists k, m'. split; [exact Hk|]. split; [exact Hrun | exact Hdone].
Defined.

(** ** Status and colour *)

Section Colour.

Variable K : Constants.
Implicit Types (c : Cell).

Lemma level_ok_predicates c :
  level_ok K c <->
  is_vulnerable K c = true \/ is_infected K c = true \/ is_immune K c = true.
Proof.
  unfold level_ok. rewrite is_vulnerable_true, is_infected_true, is_immune_true. tauto.
Qed.

Lemma color_blank c : color K c = ""%string <-> ~ level_ok K c.
Proof.
  rewrite level_ok_predicates. unfold color.
  destruct (is_vulnerable K c), (is_infected K c), (is_immune K c);
    split; intros H; try discriminate; try reflexivity;
    try (exfalso; apply H; tauto); intros [?|[?|?]]; discriminate.
Qed.

Lemma predicates_exclusive c :
  sentinels_separate K ->
  (is_vulnerable K c = true -> is_infected K c = false /\ is_immune K c = false)
  /\ (is_infected K c = true -> is_vulnerable K c = false /\ is_immune K c = false)
  /\ (is_immune K c = true -> is_vulnerable K c = false /\ is_infected K c = false).
Proof.
  intros (Hv & Hi & Hne).
  rewrite !is_vulnerable_true, !is_infected_true, !is_immune_true,
    !is_vulnerable_false, !is_infected_false, !is_immune_false.
  repeat split; intros; lia.
Qed.

Lemma color_classifies c :
  sentinels_separate K ->
  (color K c = "gray"%string <-> is_vulnerable K c = true)
  /\ (color K c = "red"%string <-> is_infected K c = true)
  /\ (color K c = "yellow"%string <-> is_immune K c = true).
Proof.
  intros HK. destruct (predicates_exclusive c HK) as (E1 & E2 & E3). unfold color.
  destruct (is_vulnerable K c) eqn:V, (is_infected K c) eqn:I, (is_immune K c) eqn:M;
    try (destruct E1 as [? ?]; [done|]; discriminate);
    try (destruct E2 as [? ?]; [done|]; discriminate);
    try (destruct E3 as [? ?]; [done|]; discriminate);
    repeat split; intros; (discriminate || reflexivity).
Qed.

End Colour.

(** X17. With separate sentinels the three status predicates exclude one
    another; and, whatever the constants, one of them holds exactly when
    the level is a sentinel or at least the infected threshold. *)
Theorem status_exclusive (K : Constants) (c : Cell) :
  sentinels_separate K ->
  (is_vulnerable K c = true -> is_infected K c = false /\ is_immune K c = false)
  /\ (is_infected K c = true -> is_vulnerable K c = false /\ is_immune K c = false)
  /\ (is_immune K c = true -> is_vulnerable K c = false /\ is_infected K c = false)
  /\ (level_ok K c <->
      is_vulnerable K c = true \/ is_infected K c = true \/ is_immune K c = true).
Proof.
  intros HK. destruct (predicates_exclusive K c HK) as (E1 & E2 & E3).
  split; [done|]. split; [done|]. split; [done|]. apply level_ok_predicates.
Qed.

Lemma status_exclusive_witness :
  is_vulnerable sample_constants sample_infected = false
  /\ is_immune sample_constants sample_infected = false.
Proof.
  destruct (status_exclusive sample_constants sample_infected sample_sentinels_separate)
    as (_ & H & _).
  apply H. reflexivity.
Defined.

(** X18. With separate sentinels [color] tells the status: it is "gray"
    exactly for a vulnerable cell, "red" exactly for an infected one and
    "yellow" exactly for an immune one.  Whatever the constants, it is the
    empty string exactly when the level is neither a sentinel nor at least
    the infected threshold. *)
Theorem color_of_status (K : Constants) (c : Cell) :
  sentinels_separate K ->
  (color K c = "gray"%string <-> is_vulnerable K c = true)
  /\ (color K c = "red"%string <-> is_infected K c = true)
  /\ (color K c = "yellow"%string <-> is_immune K c = true)
  /\ (color K c = ""%string <-> ~ level_ok K c).
Proof.
  intros HK. destruct (color_classifies K c HK) as (E1 & E2 & E3).
  split; [done|]. split; [done|]. split; [done|]. apply color_blank.
Qed.

Lemma color_of_status_witness :
  color sample_constants sample_infected = "red"%string.
Proof.
  destruct (color_of_status sample_constants sample_infected sample_sentinels_separate)
    as (_ & H & _).
  apply H. reflexivity.
Defined.

(** X19. In every state that ticks reach from a model built by
    [__init__], every cell has a colour: [color] never returns the empty
    string there, whatever the constants. *)
Theorem color_never_blank (K : Constants) (draws : nat -> R)
    (cells : Z) (speed : R) (num_infected num_immune : Z) (s : nat) (m0 : Model) (k : nat) :
  Model_init K draws cells speed num_infected num_immune s = Ok m0 ->
  exists m,
    Model_ticks K k m0 = Ok m
    /\ Forall (fun c => color K c <> ""%string) (population m).
Proof.
  intros Hinit. destruct (Model_ticks_total K k m0) as [m Hrun]. exists m. split; [done|].
  assert (Hall : Forall (level_ok K) (population m)).
  { eapply level_ok_Model_ticks; [|exact Hrun]. by eapply level_ok_Model_init. }
  eapply Forall_impl; [exact Hall|]. intros c Hc Hblank. by apply color_blank in Hblank.
Qed.

Lemma color_never_blank_witness :
  exists m0 m,
    Model_init sample_constants sample_draws 5 1 2 1 0 = Ok m0
    /\ Model_ticks sample_constants 4 m0 = Ok m
    /\ Forall (fun c => color sample_constants c <> ""%string) (population m).
Proof.
  eexists.
  destruct (color_never_blank sample_constants sample_draws 5 1%R 2 1 0%nat _ 4%nat
              (Model_init_accepts sample_constants sample_draws 5 1%R 2 1 0%nat
                 ltac:(unfold refused; lia))) as (m & Hrun & Hall).
  exists m. split; [|split; [exact Hrun | exact Hall]].
  apply Model_init_accepts. unfold refused; lia.
Defined.

(** ** The draws behind a built population, and the size of a scan *)

Lemma built_lookup (K : Constants) (draws : nat -> R) (cells : Z) (speed : R)
    (num_infected num_immune : Z) (s k : nat) :
  (k < length (built K draws cells speed num_infected num_immune s))%nat ->
  built K draws cells speed num_infected num_immune s !! k
  = Some (set_sickness (fresh_cell K draws speed (s + 3 * k))
            (if (k <? Z.to_nat num_immune)%nat then K.(IMMUNE)
             else if (k <? Z.to_nat num_immune + Z.to_nat num_infected)%nat
                  then K.(INFECTED) else K.(VULNERABLE))).
Proof.
  assert (Hmap : forall (f : nat -> Cell) n j, (j < n)%nat -> map f (seq 0 n) !! j = Some (f j)).
  { intros f n j Hj. rewrite list_lookup_fmap, lookup_seq_lt by done. done. }
  unfold built. set (a := Z.to_nat num_immune). set (b := Z.to_nat num_infected).
  set (c := Z.to_nat (cells - num_infected - num_immune)).
  rewrite !length_app, !length_map, !length_seq. intros Hk.
  destruct (Nat.ltb_spec k a) as [Ha|Ha].
  { rewrite lookup_app_l by (by rewrite length_map, length_seq).
    by rewrite Hmap. }
  rewrite lookup_app_r by (by rewrite length_map, length_seq).
  rewrite length_map, length_seq.
  destruct (Nat.ltb_spec k (a + b)) as [Hb|Hb].
  { rewrite lookup_app_l by (rewrite length_map, length_seq; lia).
    rewrite Hmap by lia.
    replace (s + 3 * a + 3 * (k - a))%nat with (s + 3 * k)%nat by lia. done. }
  rewrite lookup_app_r by (rewrite length_map, length_seq; lia).
  rewrite length_map, length_seq, Hmap by lia.
  replace (s + 3 * a + 3 * b + 3 * (k - a - b))%nat with (s + 3 * k)%nat by lia.
  reflexivity.
Qed.

(** X20. [__init__] gives every cell three draws of its own: cell number
    [k] has its location from the draws [s + 3k] and [s + 3k + 1] and its
    direction from the draw [s + 3k + 2], where [s] is the position of the
    generator at the call; its level is the Immune sentinel for
    [k < num_immune], the infected threshold for the next [num_infected]
    cells, and the Vulnerable sentinel after that. *)
Theorem constructed_cell_draws (K : Constants) (draws : nat -> R)
    (cells : Z) (speed : R) (num_infected num_immune : Z) (s : nat) (m : Model) (k : nat) :
  Model_init K draws cells speed num_infected num_immune s = Ok m ->
  (k < length (population m))%nat ->
  exists c,
    population m !! k = Some c
    /\ location c = mkPoint (draws (s + 3 * k)%nat * K.(BOUNDS_WIDTH) - K.(MAX_X))
                            (draws (s + 3 * k + 1)%nat * K.(BOUNDS_WIDTH) - K.(MAX_Y))
    /\ direction c = mkPoint (cos (2 * PI * draws (s + 3 * k + 2)%nat) * speed)
                             (sin (2 * PI * draws (s + 3 * k + 2)%nat) * speed)
    /\ sickness c = (if (k <? Z.to_nat num_immune)%nat then K.(IMMUNE)
                     else if (k <? Z.to_nat num_immune + Z.to_nat num_infected)%nat
                          then K.(INFECTED) else K.(VULNERABLE)).
Proof.
  intros Hinit Hk.
  destruct (decide (refused cells num_infected num_immune)) as [H | H].
  { apply (Model_init_refuses K draws cells speed num_infected num_immune s) in H. congruence. }
  rewrite Model_init_accepts in Hinit by done. injection Hinit as <-.
  cbn [population] in *.
  eexists. split; [by apply built_lookup|].
  unfold set_sickness, fresh_cell, Cell_init. cbn [location direction sickness].
  replace (s + 3 * k + 1)%nat with (S (s + 3 * k)) by lia.
  replace (s + 3 * k + 2)%nat with (S (S (s + 3 * k))) by lia. done.
Qed.

Lemma constructed_cell_draws_witness :
  exists c,
    built sample_constants sample_draws 5 1 2 1 0 !! 3%nat = Some c
    /\ sickness c = 0.
Proof.
  destruct (constructed_cell_draws sample_constants sample_draws 5 1%R 2 1 0%nat
              (mkModel (built sample_constants sample_draws 5 1 2 1 0) 0) 3%nat)
    as (c & Hc & _ & _ & Hs).
  - apply Model_init_accepts. unfold refused; lia.
  - cbn [population]. rewrite <- (length_map sickness), built_sickness. simpl. lia.
  - exists c. split; [exact Hc | exact Hs].
Defined.

Lemma length_pairs_from (n rounds : nat) : forall i,
  (i + rounds = n)%nat -> (2 * length (pairs_from n i rounds) = rounds * (rounds - 1))%nat.
Proof.
  induction rounds as [|rounds IH]; intros i Hn; [done|].
  rewrite pairs_from_S, length_app, length_map, length_seq.
  specialize (IH (S i) ltac:(lia)).
  replace (n - (i + 1))%nat with rounds by lia.
  replace (S rounds - 1)%nat with rounds by lia.
  destruct rounds as [|r]; [simpl in *; lia|].
  replace (S r - 1)%nat with r in IH by lia. nia.
Qed.

(** X21. A scan of [n] cells computes [n * (n - 1) / 2] distances: that
    many pairs are in its log. *)
Theorem scan_pair_count (K : Constants) (pop : list Cell) :
  exists pop' log,
    check_contacts_log K pop = Ok (pop', log)
    /\ (2 * length log = length pop * (length pop - 1))%nat.
Proof.
  destruct (check_contacts_log_spec K pop) as (pop' & log & Hrun & _ & Hpairs & _).
  exists pop', log. split; [done|].
  rewrite <- (length_map ev_pair), Hpairs. unfold all_pairs. by apply length_pairs_from.
Qed.
